(** * kor: unused ConfigMap reporter (pkg/kor/kor.go)

    A shallow embedding of the functions of [pkg/kor/kor.go] and the
    properties of the per-namespace pipeline
    collect references -> deduplicate and sort -> concatenate -> difference
    -> report.

    Conventions of the embedding:
    - a Go [string] is a [string] (a sequence of bytes), compared by
      [String.le], the bytewise lexicographic order that Go's [<] on strings
      and [sort.Strings] use;
    - a Go slice is a [list]; [nil] and the empty slice are both [[]] (the
      code only takes [len] and ranges over slices, which cannot tell them
      apart);
    - a Go [map[string]bool] is a [gmap string bool];
    - a Go [(value, error)] return is a pair whose last component is an
      [option error], [None] being the [nil] error;
    - the iteration order of [range] over a map is not specified by Go and
      may change from one loop to the next: it is drawn from a runtime
      ([GoRuntime]) whose state is threaded through the calls;
    - the Kubernetes client, [tablewriter]'s rendering and the host (home
      directory, kubeconfig loading) are external collaborators and are
      parameters. *)

From Stdlib Require Import Ascii.
From stdpp Require Import gmap strings list fin_maps sorting pretty.

(** ** Go runtime *)

Definition error := string.

Inductive result (A : Type) : Type :=
| Ok (a : A)
| Err (e : error).
Arguments Ok {A} a.
Arguments Err {A} e.

(** [range] over a [map[string]bool] visits every key exactly once, in an
    order chosen by the runtime. *)
Record GoRuntime := {
  rstate : Type;
  maprange : gmap string bool → rstate → list string * rstate;
  maprange_perm : ∀ m s, (maprange m s).1 ≡ₚ (map_to_list m).*1
}.

(** [sort.Strings]: sorts in increasing order of Go's [<] on strings. The
    order is total and two strings that compare equal are equal, so every
    correct sorting algorithm returns the same list. *)
Definition sort_Strings (x : list string) : list string :=
  merge_sort String.le x.

(** [fmt.Sprintf("%d", n)] *)
Definition Sprintf_d (n : Z) : string := pretty n.

Definition LF : string := String "010"%char EmptyString.

(** ** The fields of [k8s.io/api/core/v1] that the code reads *)

Module corev1.
Record LocalObjectReference := { Name : string }.
(* ConfigMapVolumeSource, ConfigMapProjection, ConfigMapKeySelector and
   ConfigMapEnvSource all embed LocalObjectReference; only its Name is
   read. *)
Record VolumeProjection := { vp_ConfigMap : option LocalObjectReference }.
Record ProjectedVolumeSource := { Sources : list VolumeProjection }.
Record Volume := {
  ConfigMap : option LocalObjectReference;
  Projected : option ProjectedVolumeSource
}.
Record EnvVarSource := { ConfigMapKeyRef : option LocalObjectReference }.
Record EnvVar := { ValueFrom : option EnvVarSource }.
Record EnvFromSource := { ConfigMapRef : option LocalObjectReference }.
Record Container := { Env : list EnvVar; EnvFrom : list EnvFromSource }.
(* A PodSpec has three lists of containers. An EphemeralContainer carries
   its Env and EnvFrom in the embedded EphemeralContainerCommon, with the
   types of a Container's. Of the three lists the code ranges over
   Containers only. *)
Record PodSpec := {
  Volumes : list Volume;
  Containers : list Container;
  InitContainers : list Container;
  EphemeralContainers : list Container
}.
Record Pod := { Spec : PodSpec }.
Record ConfigMapObject := { cm_Name : string }.
Record Namespace := { ns_Name : string }.
End corev1.
Import corev1.

(** [clientset.CoreV1()]: the three list calls, with [metav1.ListOptions{}]. *)
Record Clientset := {
  Pods_List : string → result (list Pod);
  ConfigMaps_List : string → result (list ConfigMapObject);
  Namespaces_List : result (list Namespace)
}.

(** ** [tablewriter] *)

Record Table := { headers : list string; lines : list (list string) }.

Definition NewWriter : Table := {| headers := []; lines := [] |}.
Definition SetHeader (t : Table) (keys : list string) : Table :=
  {| headers := keys; lines := lines t |}.
Definition Append (t : Table) (row : list string) : Table :=
  {| headers := headers t; lines := lines t ++ [row] |}.

(** ** retrieveVolumesAndEnv *)

Record Refs := {
  volumesCM : list string;
  volumesProjectedCM : list string;
  envCM : list string;
  envFromCM : list string;
  envFromContainerCM : list string
}.

Definition scanSource (r : Refs) (source : VolumeProjection) : Refs :=
  match vp_ConfigMap source with
  | Some cm =>
      {| volumesCM := volumesCM r;
         volumesProjectedCM := volumesProjectedCM r ++ [Name cm];
         envCM := envCM r; envFromCM := envFromCM r;
         envFromContainerCM := envFromContainerCM r |}
  | None => r
  end.

Definition scanVolume (r : Refs) (volume : Volume) : Refs :=
  let r :=
    match ConfigMap volume with
    | Some cm =>
        {| volumesCM := volumesCM r ++ [Name cm];
           volumesProjectedCM := volumesProjectedCM r;
           envCM := envCM r; envFromCM := envFromCM r;
           envFromContainerCM := envFromContainerCM r |}
    | None => r
    end in
  match Projected volume with
  | Some projected => foldl scanSource r (Sources projected)
  | None => r
  end.

Definition scanEnv (r : Refs) (env : EnvVar) : Refs :=
  match ValueFrom env with
  | Some valueFrom =>
      match ConfigMapKeyRef valueFrom with
      | Some ref =>
          {| volumesCM := volumesCM r;
             volumesProjectedCM := volumesProjectedCM r;
             envCM := envCM r ++ [Name ref]; envFromCM := envFromCM r;
             envFromContainerCM := envFromContainerCM r |}
      | None => r
      end
  | None => r
  end.

(* first loop over container.EnvFrom *)
Definition scanEnvFrom (r : Refs) (envFrom : EnvFromSource) : Refs :=
  match ConfigMapRef envFrom with
  | Some ref =>
      {| volumesCM := volumesCM r;
         volumesProjectedCM := volumesProjectedCM r;
         envCM := envCM r; envFromCM := envFromCM r ++ [Name ref];
         envFromContainerCM := envFromContainerCM r |}
  | None => r
  end.

(* second loop over container.EnvFrom *)
Definition scanEnvFromContainer (r : Refs) (envFrom : EnvFromSource) : Refs :=
  match ConfigMapRef envFrom with
  | Some ref =>
      {| volumesCM := volumesCM r;
         volumesProjectedCM := volumesProjectedCM r;
         envCM := envCM r; envFromCM := envFromCM r;
         envFromContainerCM := envFromContainerCM r ++ [Name ref] |}
  | None => r
  end.

Definition scanContainer (r : Refs) (container : Container) : Refs :=
  let r := foldl scanEnv r (Env container) in
  let r := foldl scanEnvFrom r (EnvFrom container) in
  foldl scanEnvFromContainer r (EnvFrom container).

Definition scanPod (r : Refs) (pod : Pod) : Refs :=
  let r := foldl scanVolume r (Volumes (Spec pod)) in
  foldl scanContainer r (Containers (Spec pod)).

Definition noRefs : Refs :=
  {| volumesCM := []; volumesProjectedCM := []; envCM := [];
     envFromCM := []; envFromContainerCM := [] |}.

Definition retrieveVolumesAndEnv (clientset : Clientset) (namespace : string)
  : list string * list string * list string * list string * list string
    * option error :=
  match Pods_List clientset namespace with
  | Err err => ([], [], [], [], [], Some err)
  | Ok pods =>
      let r := foldl scanPod noRefs pods in
      (volumesCM r, volumesProjectedCM r, envCM r, envFromCM r,
       envFromContainerCM r, None)
  end.

(** ** retrieveConfigMapNames *)

Definition retrieveConfigMapNames (clientset : Clientset) (namespace : string)
  : list string * option error :=
  match ConfigMaps_List clientset namespace with
  | Err err => ([], Some err)
  | Ok configmaps =>
      (foldl (λ names configmap, names ++ [cm_Name configmap]) [] configmaps,
       None)
  end.

(** ** calculateDifference *)

(* the inner loop: [found] after scanning usedConfigMaps, with its [break] *)
Fixpoint found_in (name : string) (usedConfigMaps : list string) : bool :=
  match usedConfigMaps with
  | [] => false
  | usedName :: rest =>
      if String.eqb name usedName then true else found_in name rest
  end.

Definition calculateDifference (usedConfigMaps configMapNames : list string)
  : list string :=
  foldl (λ difference name,
           if found_in name usedConfigMaps then difference
           else difference ++ [name])
        [] configMapNames.

(** ** formatOutput, removeDuplicatesAndSort, processNamespace *)

Definition enumerate {A} (l : list A) : list (nat * A) :=
  zip (seq 0 (length l)) l.

Section Program.
Context (rt : GoRuntime).
(* table.Render() followed by buf.String() *)
Context (Render : Table → string).

Definition formatOutput (namespace : string) (configMapNames : list string)
  : string :=
  if decide (length configMapNames = 0) then
    "No unused config maps found in the namespace: "%string +:+ namespace
  else
    let table := NewWriter in
    let table := SetHeader table ["#"%string; "Config Map Name"%string] in
    let table :=
      foldl (λ table '(i, name),
               Append table [Sprintf_d (Z.of_nat i + 1); name])
            table (enumerate configMapNames) in
    "Unused Config Maps in Namespace: "%string +:+ namespace +:+ LF
      +:+ Render table.

Definition removeDuplicatesAndSort (slice : list string) (s : rstate rt)
  : list string * rstate rt :=
  let uniqueSet : gmap string bool :=
    foldl (λ uniqueSet item, <[item := true]> uniqueSet) ∅ slice in
  let '(keys, s) := maprange rt uniqueSet s in
  let uniqueSlice :=
    foldl (λ uniqueSlice item, uniqueSlice ++ [item]) [] keys in
  (sort_Strings uniqueSlice, s).

(* processNamespace up to the call of formatOutput: the difference [diff]
   that is reported *)
Definition unusedNames (clientset : Clientset) (namespace : string)
    (s : rstate rt) : list string * option error * rstate rt :=
  let '(volumesCM, volumesProjectedCM, envCM, envFromCM,
        envFromContainerCM, err) :=
    retrieveVolumesAndEnv clientset namespace in
  match err with
  | Some err => ([], Some err, s)
  | None =>
      let '(volumesCM, s) := removeDuplicatesAndSort volumesCM s in
      let '(volumesProjectedCM, s) :=
        removeDuplicatesAndSort volumesProjectedCM s in
      let '(envCM, s) := removeDuplicatesAndSort envCM s in
      let '(envFromCM, s) := removeDuplicatesAndSort envFromCM s in
      let '(envFromContainerCM, s) :=
        removeDuplicatesAndSort envFromContainerCM s in
      let '(configMapNames, err) :=
        retrieveConfigMapNames clientset namespace in
      match err with
      | Some err => ([], Some err, s)
      | None =>
          let usedConfigMaps :=
            (((volumesCM ++ volumesProjectedCM) ++ envCM) ++ envFromCM)
              ++ envFromContainerCM in
          (calculateDifference usedConfigMaps configMapNames, None, s)
      end
  end.

Definition processNamespace (clientset : Clientset) (namespace : string)
    (s : rstate rt) : string * option error * rstate rt :=
  let '(diff, err, s) := unusedNames clientset namespace s in
  match err with
  | Some err => (EmptyString, Some err, s)
  | None => (formatOutput namespace diff, None, s)
  end.

End Program.

(** ** GetUnusedConfigmaps *)

(** What the process leaves behind: the bytes written to standard output and
    standard error, and its exit status. *)
Record Outcome := { stdout : string; stderr : string; exitCode : Z }.

(** The host: [homedir.HomeDir], [filepath.Join],
    [clientcmd.BuildConfigFromFlags] and [kubernetes.NewForConfig]. *)
Record Host := {
  Config : Type;
  HomeDir : string;
  filepath_Join : list string → string;
  BuildConfigFromFlags : string → string → result Config;
  NewForConfig : Config → result Clientset
}.

Definition getKubeConfigPath (host : Host) : string :=
  filepath_Join host [HomeDir host; ".kube"%string; "config"%string].

Section Driver.
Context (rt : GoRuntime) (Render : Table → string).

(* the loop over [namespaces] of GetUnusedConfigmaps; [out] and [errs] are
   what has been written to os.Stdout and os.Stderr so far *)
Definition namespaceLoop (clientset : Clientset) (namespaces : list string)
    (out errs : string) (s : rstate rt) : string * string * rstate rt :=
  foldl (λ '(out, errs, s) namespace,
           let '(output, err, s) :=
             processNamespace rt Render clientset namespace s in
           match err with
           | Some err =>
               (out,
                errs +:+ "Failed to process namespace "%string
                  +:+ namespace +:+ ": "%string +:+ err +:+ LF,
                s)
           | None => (out +:+ output +:+ LF +:+ LF, errs, s)
           end)
        (out, errs, s) namespaces.

Definition GetUnusedConfigmaps (host : Host) (s : rstate rt) : Outcome :=
  let kubeconfig := getKubeConfigPath host in
  match BuildConfigFromFlags host EmptyString kubeconfig with
  | Err err =>
      {| stdout := EmptyString;
         stderr := "Failed to load kubeconfig: "%string +:+ err +:+ LF;
         exitCode := 1 |}
  | Ok config =>
      match NewForConfig host config with
      | Err err =>
          {| stdout := EmptyString;
             stderr := "Failed to create Kubernetes client: "%string
                         +:+ err +:+ LF;
             exitCode := 1 |}
      | Ok clientset =>
          match Namespaces_List clientset with
          | Err err =>
              {| stdout := EmptyString;
                 stderr := "Failed to retrieve namespaces: "%string
                             +:+ err +:+ LF;
                 exitCode := 1 |}
          | Ok namespaceList =>
              let namespaces :=
                foldl (λ namespaces ns, namespaces ++ [ns_Name ns])
                      [] namespaceList in
              let '(out, errs, _) :=
                namespaceLoop clientset namespaces
                              EmptyString EmptyString s in
              {| stdout := out; stderr := errs; exitCode := 0 |}
          end
      end
  end.

End Driver.

(** ** excludeListContains *)

Fixpoint excludeListContains (excludeList : list string) (namespace : string)
  : bool :=
  match excludeList with
  | [] => false
  | excluded :: rest =>
      if String.eqb excluded namespace then true
      else excludeListContains rest namespace
  end.

(** ** Two runtimes *)

(** Ranges over a map in the order of [map_to_list]. *)
Definition rt_listing : GoRuntime :=
  {| rstate := unit;
     maprange m s := ((map_to_list m).*1, s);
     maprange_perm m s := reflexivity _ |}.

(** Alternates between that order and its reverse, from one [range] to the
    next. *)
Program Definition rt_flipping : GoRuntime :=
  {| rstate := bool;
     maprange m s :=
       (if s then reverse (map_to_list m).*1 else (map_to_list m).*1,
        negb s) |}.
Next Obligation. intros m [|]; simpl; [apply reverse_Permutation | done]. Qed.

Definition cmref (name : string) : option LocalObjectReference :=
  Some {| Name := name |}.

(** A Pod that mounts app-config, projects proj, reads a key of envcm and
    imports db-secrets and app-config with [envFrom]. *)
Definition ex_pod : Pod :=
  {| Spec := {|
       Volumes :=
         [ {| ConfigMap := cmref "app-config"; Projected := None |};
           {| ConfigMap := None;
              Projected :=
                Some {| Sources := [ {| vp_ConfigMap := cmref "proj" |};
                                     {| vp_ConfigMap := None |} ] |} |} ];
       Containers :=
         [ {| Env :=
                [ {| ValueFrom :=
                       Some {| ConfigMapKeyRef := cmref "envcm" |} |};
                  {| ValueFrom := None |} ];
              EnvFrom := [ {| ConfigMapRef := cmref "db-secrets" |};
                           {| ConfigMapRef := cmref "app-config" |} ] |} ];
       InitContainers := [];
       EphemeralContainers := []
     |} |}.

(** A Pod whose only references are held by an init container, which
    imports init-cm with [envFrom], and by an ephemeral container, which
    reads a key of debug-cm. *)
Definition ex_pod_init : Pod :=
  {| Spec := {|
       Volumes := [];
       Containers := [ {| Env := []; EnvFrom := [] |} ];
       InitContainers :=
         [ {| Env := [];
              EnvFrom := [ {| ConfigMapRef := cmref "init-cm" |} ] |} ];
       EphemeralContainers :=
         [ {| Env :=
                [ {| ValueFrom :=
                       Some {| ConfigMapKeyRef := cmref "debug-cm" |} |} ];
              EnvFrom := [] |} ]
     |} |}.

(** A cluster with four namespaces: default runs [ex_pod] twice, the Pod
    listing of broken and the ConfigMap listing of nocm fail; every
    namespace has the same inventory. *)
Definition ex_cluster (inventory : list string) : Clientset :=
  {| Pods_List ns := if String.eqb ns "default" then Ok [ex_pod; ex_pod]
                     else if String.eqb ns "broken" then Err "timeout"%string
                     else Ok [];
     ConfigMaps_List ns :=
       if String.eqb ns "nocm" then Err "forbidden"%string
       else Ok ((λ n, {| cm_Name := n |}) <$> inventory);
     Namespaces_List :=
       Ok ((λ n, {| ns_Name := n |}) <$>
             ["default"; "broken"; "nocm"; "other"]%string) |}.

Definition ex_render (t : Table) : string :=
  String.concat "|" (headers t) +:+ LF
    +:+ String.concat LF (String.concat "|" <$> lines t) +:+ LF.

Definition ex_host (inventory : list string) : Host :=
  {| Config := unit;
     HomeDir := "/root";
     filepath_Join := String.concat "/";
     BuildConfigFromFlags _ _ := Ok tt;
     NewForConfig _ := Ok (ex_cluster inventory) |}.

(** The cluster of [ex_cluster] with the given Pods in every namespace. *)
Definition ex_cluster_pods (pods : list Pod) (inventory : list string)
  : Clientset :=
  {| Pods_List ns := Ok pods;
     ConfigMaps_List := ConfigMaps_List (ex_cluster inventory);
     Namespaces_List := Namespaces_List (ex_cluster inventory) |}.

(** ** Definitions used to state the properties *)

(** The map built by the first loop of removeDuplicatesAndSort. *)
Definition uniqueSet_of (slice : list string) : gmap string bool :=
  foldl (λ uniqueSet item, <[item := true]> uniqueSet) ∅ slice.

(** Number of occurrences of a name in a list. *)
Definition occurrences (name : string) (l : list string) : nat :=
  length (filter (λ x, x = name) l).

(** Componentwise concatenation of the five partitions. *)
Definition rapp (a b : Refs) : Refs :=
  {| volumesCM := volumesCM a ++ volumesCM b;
     volumesProjectedCM := volumesProjectedCM a ++ volumesProjectedCM b;
     envCM := envCM a ++ envCM b;
     envFromCM := envFromCM a ++ envFromCM b;
     envFromContainerCM := envFromContainerCM a ++ envFromContainerCM b |}.

Definition rconcat (l : list Refs) : Refs := foldr rapp noRefs l.

(** A loop body [f] appends when running it on [r] adds to [r] what it
    collects from scratch. *)
Definition appends {A} (f : Refs → A → Refs) : Prop :=
  ∀ r x, f r x = rapp r (f noRefs x).

(* the body of [if volume.ConfigMap != nil] *)
Definition scanVolumeConfigMap (r : Refs) (volume : Volume) : Refs :=
  match ConfigMap volume with
  | Some cm =>
      {| volumesCM := volumesCM r ++ [Name cm];
         volumesProjectedCM := volumesProjectedCM r;
         envCM := envCM r; envFromCM := envFromCM r;
         envFromContainerCM := envFromContainerCM r |}
  | None => r
  end.

(* the body of [if volume.Projected != nil] *)
Definition scanVolumeProjected (r : Refs) (volume : Volume) : Refs :=
  match Projected volume with
  | Some projected => foldl scanSource r (Sources projected)
  | None => r
  end.

(** The partitions, seen as functions of the collected references. *)
Class Field (F : Refs → list string) : Prop := {
  field_rapp a b : F (rapp a b) = F a ++ F b;
  field_noRefs : F noRefs = []
}.

(** The names one volume, projection source, environment variable or
    [envFrom] entry contributes. *)
Definition volumeNames (volume : Volume) : list string :=
  match ConfigMap volume with Some cm => [Name cm] | None => [] end.

Definition sourceNames (source : VolumeProjection) : list string :=
  match vp_ConfigMap source with Some cm => [Name cm] | None => [] end.

Definition projectedNames (volume : Volume) : list string :=
  match Projected volume with
  | Some projected => Sources projected ≫= sourceNames
  | None => []
  end.

Definition envNames (env : EnvVar) : list string :=
  match ValueFrom env with
  | Some valueFrom =>
      match ConfigMapKeyRef valueFrom with
      | Some ref => [Name ref]
      | None => []
      end
  | None => []
  end.

Definition envFromNames (envFrom : EnvFromSource) : list string :=
  match ConfigMapRef envFrom with Some ref => [Name ref] | None => [] end.

(** The five partitions as list comprehensions over the Pods. *)
Definition collected (pods : list Pod) : Refs :=
  {| volumesCM := pods ≫= λ pod, Volumes (Spec pod) ≫= volumeNames;
     volumesProjectedCM :=
       pods ≫= λ pod, Volumes (Spec pod) ≫= projectedNames;
     envCM :=
       pods ≫= λ pod, Containers (Spec pod) ≫= λ container,
         Env container ≫= envNames;
     envFromCM :=
       pods ≫= λ pod, Containers (Spec pod) ≫= λ container,
         EnvFrom container ≫= envFromNames;
     envFromContainerCM :=
       pods ≫= λ pod, Containers (Spec pod) ≫= λ container,
         EnvFrom container ≫= envFromNames |}.

(** The four ways a Pod references a ConfigMap named [c]. *)
Definition refVolume (c : string) (pod : Pod) : Prop :=
  ∃ volume cm,
    volume ∈ Volumes (Spec pod) ∧ ConfigMap volume = Some cm ∧ Name cm = c.

Definition refProjected (c : string) (pod : Pod) : Prop :=
  ∃ volume projected source cm,
    volume ∈ Volumes (Spec pod) ∧ Projected volume = Some projected ∧
    source ∈ Sources projected ∧ vp_ConfigMap source = Some cm ∧ Name cm = c.

(** Some container of the list has an environment variable whose value
    comes from a key of the ConfigMap named [c], or an [envFrom] entry that
    imports the ConfigMap named [c]. *)
Definition envRefIn (containers : list Container) (c : string) : Prop :=
  ∃ container env valueFrom ref,
    container ∈ containers ∧ env ∈ Env container ∧
    ValueFrom env = Some valueFrom ∧ ConfigMapKeyRef valueFrom = Some ref ∧
    Name ref = c.

Definition envFromRefIn (containers : list Container) (c : string) : Prop :=
  ∃ container envFrom ref,
    container ∈ containers ∧ envFrom ∈ EnvFrom container ∧
    ConfigMapRef envFrom = Some ref ∧ Name ref = c.

(** All the containers of a Pod: regular, init and ephemeral. *)
Definition allContainers (pod : Pod) : list Container :=
  Containers (Spec pod) ++ InitContainers (Spec pod)
    ++ EphemeralContainers (Spec pod).

Definition refEnv (c : string) (pod : Pod) : Prop :=
  envRefIn (allContainers pod) c.

Definition refEnvFrom (c : string) (pod : Pod) : Prop :=
  envFromRefIn (allContainers pod) c.

(** Some Pod of the list references [c] through one of the four, in any of
    its containers. *)
Definition referenced (pods : list Pod) (c : string) : Prop :=
  ∃ pod, pod ∈ pods ∧
    (refVolume c pod ∨ refProjected c pod ∨ refEnv c pod ∨ refEnvFrom c pod).

(** The references of the regular containers, those of [spec.containers],
    alone. *)
Definition refEnvMain (c : string) (pod : Pod) : Prop :=
  envRefIn (Containers (Spec pod)) c.

Definition refEnvFromMain (c : string) (pod : Pod) : Prop :=
  envFromRefIn (Containers (Spec pod)) c.

(** Some Pod of the list references [c] through a volume, a projected
    volume source, or an environment variable or [envFrom] entry of one of
    its regular containers. *)
Definition referencedMain (pods : list Pod) (c : string) : Prop :=
  ∃ pod, pod ∈ pods ∧
    (refVolume c pod ∨ refProjected c pod ∨ refEnvMain c pod
     ∨ refEnvFromMain c pod).

(** The Pod has neither init nor ephemeral containers. *)
Definition regularOnly (pod : Pod) : Prop :=
  InitContainers (Spec pod) = [] ∧ EphemeralContainers (Spec pod) = [].

(** [usedConfigMaps] of processNamespace, for the Pods of the namespace. *)
Definition usedConfigMaps_of (pods : list Pod) : list string :=
  let r := collected pods in
  (((sort_Strings (remove_dups (volumesCM r))
     ++ sort_Strings (remove_dups (volumesProjectedCM r)))
    ++ sort_Strings (remove_dups (envCM r)))
   ++ sort_Strings (remove_dups (envFromCM r)))
  ++ sort_Strings (remove_dups (envFromContainerCM r)).

(** What processNamespace returns, as a function of the two listings. *)
Definition unusedNames_of (clientset : Clientset) (namespace : string)
  : list string * option error :=
  match Pods_List clientset namespace with
  | Err err => ([], Some err)
  | Ok pods =>
      match ConfigMaps_List clientset namespace with
      | Err err => ([], Some err)
      | Ok configmaps =>
          (calculateDifference (usedConfigMaps_of pods)
                               (cm_Name <$> configmaps), None)
      end
  end.

Definition processNamespace_of (Render : Table → string)
    (clientset : Clientset) (namespace : string) : string * option error :=
  match unusedNames_of clientset namespace with
  | (_, Some err) => (EmptyString, Some err)
  | (diff, None) => (formatOutput Render namespace diff, None)
  end.

(** What one namespace adds to standard output and to standard error. *)
Definition stdoutBlock (Render : Table → string) (clientset : Clientset)
    (namespace : string) : string :=
  match processNamespace_of Render clientset namespace with
  | (_, Some _) => EmptyString
  | (output, None) => output +:+ LF +:+ LF
  end.

Definition stderrBlock (clientset : Clientset) (namespace : string) : string :=
  match unusedNames_of clientset namespace with
  | (_, Some err) =>
      "Failed to process namespace "%string +:+ namespace +:+ ": "%string
        +:+ err +:+ LF
  | (_, None) => EmptyString
  end.

(** The message for a namespace without unused ConfigMaps. *)
Definition noneFound (namespace : string) : string :=
  "No unused config maps found in the namespace: "%string +:+ namespace.

(** The table handed to the renderer for a non-empty list of names. *)
Definition unusedTable (configMapNames : list string) : Table :=
  {| headers := ["#"%string; "Config Map Name"%string];
     lines := imap (λ i name, [Sprintf_d (Z.of_nat i + 1); name])
                   configMapNames |}.

(** Concatenation of the blocks written one after the other. *)
Definition joinBlocks (blocks : list string) : string :=
  foldr String.append EmptyString blocks.

(** * Properties *)

(** ** Loops that append *)

Lemma foldl_snoc_fmap {A B} (f : A → B) (l : list A) (acc : list B) :
  foldl (λ acc x, acc ++ [f x]) acc l = acc ++ (f <$> l).
Proof.
  revert acc. induction l as [|x l IH]; intros acc; simpl.
  - by rewrite app_nil_r.
  - by rewrite IH, <- app_assoc.
Qed.

Lemma foldl_snoc_id {A} (l acc : list A) :
  foldl (λ acc x, acc ++ [x]) acc l = acc ++ l.
Proof. by rewrite (foldl_snoc_fmap id), list_fmap_id. Qed.

(** ** sort.Strings *)

Lemma sort_Strings_Sorted l : Sorted String.le (sort_Strings l).
Proof. apply Sorted_merge_sort, _. Qed.

Lemma sort_Strings_perm l : sort_Strings l ≡ₚ l.
Proof. apply merge_sort_Permutation. Qed.

(** Whatever the algorithm, a sorted rearrangement of [l] is this one: two
    strings that compare equal are the same string. *)
Lemma sort_Strings_unique l out :
  Sorted String.le out → out ≡ₚ l → out = sort_Strings l.
Proof.
  intros Hs Hp. apply (Sorted_unique String.le); [done|apply sort_Strings_Sorted|].
  by rewrite Hp, sort_Strings_perm.
Qed.

Lemma sort_Strings_proper l k : l ≡ₚ k → sort_Strings l = sort_Strings k.
Proof.
  intros Hp. apply sort_Strings_unique; [apply sort_Strings_Sorted|].
  by rewrite sort_Strings_perm.
Qed.

(** ** The set built by removeDuplicatesAndSort *)

Lemma uniqueSet_lookup (slice : list string) (m : gmap string bool) x :
  is_Some (foldl (λ uniqueSet item, <[item := true]> uniqueSet) m slice !! x)
  ↔ is_Some (m !! x) ∨ x ∈ slice.
Proof.
  revert m. induction slice as [|y slice IH]; intros m; simpl.
  - rewrite elem_of_nil. tauto.
  - rewrite IH, elem_of_cons. destruct (decide (y = x)) as [->|Hne].
    + rewrite lookup_insert_eq. split; [intros _|]; eauto.
    + rewrite lookup_insert_ne by done.
      split; [intros [?|?]; auto | intros [?|[?|?]]; auto; congruence].
Qed.

Lemma uniqueSet_keys (slice : list string) x :
  x ∈ (map_to_list (uniqueSet_of slice)).*1 ↔ x ∈ slice.
Proof.
  unfold uniqueSet_of. rewrite list_elem_of_fmap. split.
  - intros [[k v] [-> Hkv]]. apply elem_of_map_to_list in Hkv.
    assert (is_Some (foldl (λ uniqueSet item, <[item := true]> uniqueSet)
                           (∅ : gmap string bool) slice !! k)) as Hs by eauto.
    apply uniqueSet_lookup in Hs as [Hs|Hs]; [|done].
    rewrite lookup_empty in Hs. by destruct Hs.
  - intros Hx.
    destruct (proj2 (uniqueSet_lookup slice ∅ x) (or_intror Hx)) as [v Hv].
    exists (x, v). split; [done|]. by apply elem_of_map_to_list.
Qed.

Lemma uniqueSet_keys_perm (slice : list string) :
  (map_to_list (uniqueSet_of slice)).*1 ≡ₚ remove_dups slice.
Proof.
  apply NoDup_Permutation.
  - apply NoDup_fst_map_to_list.
  - apply NoDup_remove_dups.
  - intros x. by rewrite uniqueSet_keys, elem_of_remove_dups.
Qed.

(** The result does not depend on the order in which the runtime ranges over
    the map, and the runtime state moves on by one [range]. *)
Lemma removeDuplicatesAndSort_eq rt slice s :
  removeDuplicatesAndSort rt slice s
  = (sort_Strings (remove_dups slice), (maprange rt (uniqueSet_of slice) s).2).
Proof.
  unfold removeDuplicatesAndSort. fold (uniqueSet_of slice).
  pose proof (maprange_perm rt (uniqueSet_of slice) s) as Hp.
  destruct (maprange rt (uniqueSet_of slice) s) as [keys s']; simpl in *.
  f_equal. rewrite foldl_snoc_id; simpl. apply sort_Strings_proper.
  by rewrite Hp, uniqueSet_keys_perm.
Qed.

Lemma removeDuplicatesAndSort_fst rt slice s :
  (removeDuplicatesAndSort rt slice s).1 = sort_Strings (remove_dups slice).
Proof. by rewrite removeDuplicatesAndSort_eq. Qed.

Lemma sort_dedup_elem_of slice x :
  x ∈ sort_Strings (remove_dups slice) ↔ x ∈ slice.
Proof. by rewrite sort_Strings_perm, elem_of_remove_dups. Qed.

Lemma sort_dedup_NoDup slice : NoDup (sort_Strings (remove_dups slice)).
Proof. rewrite sort_Strings_perm. apply NoDup_remove_dups. Qed.

(** ** calculateDifference *)

Lemma found_in_spec name usedConfigMaps :
  found_in name usedConfigMaps = bool_decide (name ∈ usedConfigMaps).
Proof.
  induction usedConfigMaps as [|usedName rest IH]; cbn [found_in].
  - symmetry. apply bool_decide_eq_false. apply not_elem_of_nil.
  - destruct (String.eqb_spec name usedName) as [->|Hne].
    + symmetry. apply bool_decide_eq_true. apply elem_of_cons; auto.
    + rewrite IH. apply bool_decide_ext. rewrite elem_of_cons. tauto.
Qed.

Lemma calculateDifference_acc usedConfigMaps configMapNames difference :
  foldl (λ difference name,
           if found_in name usedConfigMaps then difference
           else difference ++ [name])
        difference configMapNames
  = difference ++ filter (λ name, name ∉ usedConfigMaps) configMapNames.
Proof.
  revert difference.
  induction configMapNames as [|name rest IH]; intros difference; simpl.
  - by rewrite app_nil_r.
  - rewrite IH, found_in_spec, filter_cons.
    destruct (decide (name ∈ usedConfigMaps)) as [Hin|Hnin].
    + by rewrite bool_decide_eq_true_2, decide_False by auto.
    + rewrite bool_decide_eq_false_2, decide_True by auto.
      by rewrite <- app_assoc.
Qed.

Lemma calculateDifference_filter usedConfigMaps configMapNames :
  calculateDifference usedConfigMaps configMapNames
  = filter (λ name, name ∉ usedConfigMaps) configMapNames.
Proof. unfold calculateDifference. by rewrite calculateDifference_acc. Qed.

Lemma calculateDifference_elem_of usedConfigMaps configMapNames x :
  x ∈ calculateDifference usedConfigMaps configMapNames
  ↔ x ∈ configMapNames ∧ x ∉ usedConfigMaps.
Proof. rewrite calculateDifference_filter, list_elem_of_filter. tauto. Qed.

Lemma calculateDifference_sublist usedConfigMaps configMapNames :
  calculateDifference usedConfigMaps configMapNames `sublist_of` configMapNames.
Proof. rewrite calculateDifference_filter. apply sublist_filter. Qed.

(** With nothing used, the inventory comes back as it was listed. *)
Lemma calculateDifference_nil_used configMapNames :
  calculateDifference [] configMapNames = configMapNames.
Proof.
  rewrite calculateDifference_filter.
  induction configMapNames as [|name rest IH]; [done|].
  rewrite filter_cons, decide_True by apply not_elem_of_nil. by rewrite IH.
Qed.

(** Only the set of used names matters. *)
Lemma calculateDifference_ext used1 used2 configMapNames :
  (∀ x, x ∈ used1 ↔ x ∈ used2) →
  calculateDifference used1 configMapNames
  = calculateDifference used2 configMapNames.
Proof.
  intros Heq. rewrite !calculateDifference_filter.
  apply list_filter_iff. intros x. by rewrite Heq.
Qed.

Lemma occurrences_filter_in (P : string → Prop) `{∀ x, Decision (P x)} name l :
  P name → occurrences name (filter P l) = occurrences name l.
Proof.
  intros HP. unfold occurrences. induction l as [|y l IH]; [done|].
  rewrite !filter_cons. destruct (decide (P y)) as [Hy|Hy].
  - rewrite filter_cons. destruct (decide (y = name)); simpl; by rewrite IH.
  - rewrite IH. destruct (decide (y = name)) as [->|]; [done|done].
Qed.

Lemma occurrences_filter_out (P : string → Prop) `{∀ x, Decision (P x)} name l :
  ¬ P name → occurrences name (filter P l) = 0.
Proof.
  intros HP. unfold occurrences. induction l as [|y l IH]; [done|].
  rewrite filter_cons. destruct (decide (P y)) as [Hy|Hy]; [|done].
  rewrite filter_cons. destruct (decide (y = name)) as [->|]; [done|done].
Qed.

(** ** Sorted lists and their sublists *)

Lemma StronglySorted_sublist {A} (R : relation A) (l k : list A) :
  l `sublist_of` k → StronglySorted R k → StronglySorted R l.
Proof.
  induction 1 as [|x l k Hlk IH|x l k Hlk IH]; intros Hk.
  - constructor.
  - apply StronglySorted_inv in Hk as [Hk Hx]. constructor; [auto|].
    eapply Forall_forall. intros y Hy.
    eapply Forall_forall in Hx; [done|]. by eapply elem_of_sublist.
  - apply StronglySorted_inv in Hk as [Hk _]. auto.
Qed.

Lemma Sorted_le_sublist (l k : list string) :
  l `sublist_of` k → Sorted String.le k → Sorted String.le l.
Proof.
  intros Hlk Hk. apply StronglySorted_Sorted.
  eapply StronglySorted_sublist; [done|].
  by apply (Sorted_StronglySorted String.le).
Qed.

(** [String.le] is Go's order on strings: bytes are compared as unsigned
    numbers, the first difference decides, and a proper prefix is smaller. *)
Lemma String_le_nil_l t : String.le EmptyString t.
Proof. by destruct t. Qed.

Lemma String_le_nil_r a s : ¬ String.le (String a s) EmptyString.
Proof. unfold String.le. simpl. auto. Qed.

Lemma String_le_cons a s b t :
  String.le (String a s) (String b t)
  ↔ (N_of_ascii a < N_of_ascii b)%N ∨ (a = b ∧ String.le s t).
Proof.
  unfold String.le, String.leb. simpl. unfold Ascii.compare.
  destruct (N.compare_spec (N_of_ascii a) (N_of_ascii b)) as [Heq|Hlt|Hgt].
  - assert (a = b) as ->.
    { by rewrite <- (ascii_N_embedding a), Heq, ascii_N_embedding. }
    split; [auto|]. intros [?|[_ ?]]; [lia|done].
  - simpl. split; auto.
  - simpl. split; [done|]. intros [?|[-> _]]; lia.
Qed.

(** ** The reference collector only appends *)

Lemma rapp_assoc a b c : rapp (rapp a b) c = rapp a (rapp b c).
Proof. unfold rapp; simpl. by rewrite <- !app_assoc. Qed.

Lemma rapp_noRefs_r a : rapp a noRefs = a.
Proof. destruct a. unfold rapp; simpl. by rewrite !app_nil_r. Qed.

Lemma rapp_noRefs_l a : rapp noRefs a = a.
Proof. by destruct a. Qed.

Lemma appends_foldl {A} (f : Refs → A → Refs) :
  appends f → ∀ l r, foldl f r l = rapp r (rconcat (f noRefs <$> l)).
Proof.
  intros Hf l. induction l as [|x l IH]; intros r; simpl.
  - by rewrite rapp_noRefs_r.
  - by rewrite IH, (Hf r x), rapp_assoc.
Qed.

Lemma appends_foldl_noRefs {A} (f : Refs → A → Refs) l :
  appends f → foldl f noRefs l = rconcat (f noRefs <$> l).
Proof. intros Hf. by rewrite appends_foldl, rapp_noRefs_l. Qed.

Lemma appends_loop {A} (f : Refs → A → Refs) :
  appends f → appends (λ r l, foldl f r l).
Proof.
  intros Hf r l. by rewrite (appends_foldl f Hf l r), appends_foldl_noRefs.
Qed.

Lemma appends_seq {A} (f g : Refs → A → Refs) :
  appends f → appends g → appends (λ r x, g (f r x) x).
Proof.
  intros Hf Hg r x. rewrite (Hg (f r x)), (Hg (f noRefs x)), (Hf r x).
  by rewrite rapp_assoc.
Qed.

Lemma appends_scanSource : appends scanSource.
Proof.
  intros r source. unfold scanSource.
  destruct (vp_ConfigMap source); [|by rewrite rapp_noRefs_r].
  unfold rapp; simpl. by rewrite !app_nil_r.
Qed.

Lemma appends_scanEnv : appends scanEnv.
Proof.
  intros r env. unfold scanEnv.
  destruct (ValueFrom env) as [valueFrom|]; [|by rewrite rapp_noRefs_r].
  destruct (ConfigMapKeyRef valueFrom); [|by rewrite rapp_noRefs_r].
  unfold rapp; simpl. by rewrite !app_nil_r.
Qed.

Lemma appends_scanEnvFrom : appends scanEnvFrom.
Proof.
  intros r envFrom. unfold scanEnvFrom.
  destruct (ConfigMapRef envFrom); [|by rewrite rapp_noRefs_r].
  unfold rapp; simpl. by rewrite !app_nil_r.
Qed.

Lemma appends_scanEnvFromContainer : appends scanEnvFromContainer.
Proof.
  intros r envFrom. unfold scanEnvFromContainer.
  destruct (ConfigMapRef envFrom); [|by rewrite rapp_noRefs_r].
  unfold rapp; simpl. by rewrite !app_nil_r.
Qed.

Lemma scanVolume_seq r volume :
  scanVolume r volume
  = scanVolumeProjected (scanVolumeConfigMap r volume) volume.
Proof. done. Qed.

Lemma appends_scanVolumeConfigMap : appends scanVolumeConfigMap.
Proof.
  intros r volume. unfold scanVolumeConfigMap.
  destruct (ConfigMap volume); [|by rewrite rapp_noRefs_r].
  unfold rapp; simpl. by rewrite !app_nil_r.
Qed.

Lemma appends_scanVolumeProjected : appends scanVolumeProjected.
Proof.
  intros r volume. unfold scanVolumeProjected.
  destruct (Projected volume) as [projected|]; [|by rewrite rapp_noRefs_r].
  apply (appends_loop scanSource appends_scanSource).
Qed.

Lemma appends_scanVolume : appends scanVolume.
Proof.
  intros r volume. rewrite !scanVolume_seq.
  apply (appends_seq scanVolumeConfigMap scanVolumeProjected);
    [apply appends_scanVolumeConfigMap|apply appends_scanVolumeProjected].
Qed.

Lemma appends_scanContainer : appends scanContainer.
Proof.
  intros r container. unfold scanContainer.
  rewrite !(appends_foldl scanEnvFromContainer appends_scanEnvFromContainer).
  rewrite !(appends_foldl scanEnvFrom appends_scanEnvFrom).
  rewrite !(appends_foldl scanEnv appends_scanEnv).
  by rewrite !rapp_assoc, !rapp_noRefs_l.
Qed.

Lemma appends_scanPod : appends scanPod.
Proof.
  intros r pod. unfold scanPod.
  rewrite !(appends_foldl scanContainer appends_scanContainer).
  rewrite !(appends_foldl scanVolume appends_scanVolume).
  by rewrite !rapp_assoc, !rapp_noRefs_l.
Qed.

Global Instance volumesCM_field : Field volumesCM.
Proof. by split. Qed.
Global Instance volumesProjectedCM_field : Field volumesProjectedCM.
Proof. by split. Qed.
Global Instance envCM_field : Field envCM.
Proof. by split. Qed.
Global Instance envFromCM_field : Field envFromCM.
Proof. by split. Qed.
Global Instance envFromContainerCM_field : Field envFromContainerCM.
Proof. by split. Qed.

Lemma field_rconcat F `{!Field F} (l : list Refs) :
  F (rconcat l) = l ≫= F.
Proof.
  induction l as [|r l IH].
  - apply field_noRefs.
  - rewrite bind_cons, <- IH. apply field_rapp.
Qed.

Lemma field_foldl F `{!Field F} {A} (f : Refs → A → Refs) (l : list A) :
  appends f → F (foldl f noRefs l) = l ≫= (λ x, F (f noRefs x)).
Proof.
  intros Hf. rewrite appends_foldl_noRefs, field_rconcat by done.
  induction l as [|x l IH]; [done|].
  by rewrite fmap_cons, !bind_cons, IH.
Qed.

(** ** What the reference collector returns *)

Lemma bind_nil_fun {A B} (l : list A) (f : A → list B) :
  (∀ x, f x = []) → l ≫= f = [].
Proof.
  intros Hf. induction l as [|x l IH]; [done|].
  by rewrite bind_cons, Hf, IH.
Qed.

Lemma Refs_eq (a b : Refs) :
  volumesCM a = volumesCM b →
  volumesProjectedCM a = volumesProjectedCM b →
  envCM a = envCM b →
  envFromCM a = envFromCM b →
  envFromContainerCM a = envFromContainerCM b →
  a = b.
Proof. destruct a, b; simpl. by intros -> -> -> -> ->. Qed.

Lemma scanSource_noRefs source :
  scanSource noRefs source
  = {| volumesCM := []; volumesProjectedCM := sourceNames source;
       envCM := []; envFromCM := []; envFromContainerCM := [] |}.
Proof. unfold scanSource, sourceNames. by destruct (vp_ConfigMap source). Qed.

Lemma scanEnv_noRefs env :
  scanEnv noRefs env
  = {| volumesCM := []; volumesProjectedCM := []; envCM := envNames env;
       envFromCM := []; envFromContainerCM := [] |}.
Proof.
  unfold scanEnv, envNames.
  destruct (ValueFrom env) as [valueFrom|]; [|done].
  by destruct (ConfigMapKeyRef valueFrom).
Qed.

Lemma scanEnvFrom_noRefs envFrom :
  scanEnvFrom noRefs envFrom
  = {| volumesCM := []; volumesProjectedCM := []; envCM := [];
       envFromCM := envFromNames envFrom; envFromContainerCM := [] |}.
Proof.
  unfold scanEnvFrom, envFromNames. by destruct (ConfigMapRef envFrom).
Qed.

Lemma scanEnvFromContainer_noRefs envFrom :
  scanEnvFromContainer noRefs envFrom
  = {| volumesCM := []; volumesProjectedCM := []; envCM := [];
       envFromCM := []; envFromContainerCM := envFromNames envFrom |}.
Proof.
  unfold scanEnvFromContainer, envFromNames.
  by destruct (ConfigMapRef envFrom).
Qed.

Lemma foldl_scanSource_noRefs sources :
  foldl scanSource noRefs sources
  = {| volumesCM := []; volumesProjectedCM := sources ≫= sourceNames;
       envCM := []; envFromCM := []; envFromContainerCM := [] |}.
Proof.
  apply Refs_eq; simpl;
    rewrite (field_foldl _ scanSource sources appends_scanSource);
    try (apply bind_nil_fun; intros x; by rewrite scanSource_noRefs).
  apply list_bind_ext; [|done]. intros x. by rewrite scanSource_noRefs.
Qed.

Lemma scanVolume_noRefs volume :
  scanVolume noRefs volume
  = {| volumesCM := volumeNames volume;
       volumesProjectedCM := projectedNames volume;
       envCM := []; envFromCM := []; envFromContainerCM := [] |}.
Proof.
  unfold scanVolume, volumeNames, projectedNames.
  destruct (Projected volume) as [projected|].
  - rewrite (appends_foldl scanSource appends_scanSource).
    rewrite <- appends_foldl_noRefs by apply appends_scanSource.
    rewrite foldl_scanSource_noRefs.
    destruct (ConfigMap volume); unfold rapp; simpl; by rewrite ?app_nil_r.
  - by destruct (ConfigMap volume).
Qed.

Lemma foldl_scanEnv_noRefs envs :
  foldl scanEnv noRefs envs
  = {| volumesCM := []; volumesProjectedCM := [];
       envCM := envs ≫= envNames;
       envFromCM := []; envFromContainerCM := [] |}.
Proof.
  apply Refs_eq; simpl;
    rewrite (field_foldl _ scanEnv envs appends_scanEnv);
    try (apply bind_nil_fun; intros x; by rewrite scanEnv_noRefs).
  apply list_bind_ext; [|done]. intros x. by rewrite scanEnv_noRefs.
Qed.

Lemma foldl_scanEnvFrom_noRefs envFroms :
  foldl scanEnvFrom noRefs envFroms
  = {| volumesCM := []; volumesProjectedCM := []; envCM := [];
       envFromCM := envFroms ≫= envFromNames;
       envFromContainerCM := [] |}.
Proof.
  apply Refs_eq; simpl;
    rewrite (field_foldl _ scanEnvFrom envFroms appends_scanEnvFrom);
    try (apply bind_nil_fun; intros x; by rewrite scanEnvFrom_noRefs).
  apply list_bind_ext; [|done]. intros x. by rewrite scanEnvFrom_noRefs.
Qed.

Lemma foldl_scanEnvFromContainer_noRefs envFroms :
  foldl scanEnvFromContainer noRefs envFroms
  = {| volumesCM := []; volumesProjectedCM := []; envCM := [];
       envFromCM := [];
       envFromContainerCM := envFroms ≫= envFromNames |}.
Proof.
  apply Refs_eq; simpl;
    rewrite (field_foldl _ scanEnvFromContainer envFroms
               appends_scanEnvFromContainer);
    try (apply bind_nil_fun; intros x;
         by rewrite scanEnvFromContainer_noRefs).
  apply list_bind_ext; [|done].
  intros x. by rewrite scanEnvFromContainer_noRefs.
Qed.

Lemma scanContainer_noRefs container :
  scanContainer noRefs container
  = {| volumesCM := []; volumesProjectedCM := [];
       envCM := Env container ≫= envNames;
       envFromCM := EnvFrom container ≫= envFromNames;
       envFromContainerCM := EnvFrom container ≫= envFromNames |}.
Proof.
  unfold scanContainer.
  rewrite (appends_foldl scanEnvFromContainer appends_scanEnvFromContainer).
  rewrite (appends_foldl scanEnvFrom appends_scanEnvFrom).
  rewrite <- !appends_foldl_noRefs
    by first [apply appends_scanEnvFrom | apply appends_scanEnvFromContainer].
  rewrite foldl_scanEnv_noRefs, foldl_scanEnvFrom_noRefs,
    foldl_scanEnvFromContainer_noRefs.
  unfold rapp; simpl. by rewrite !app_nil_r.
Qed.

Lemma foldl_scanVolume_noRefs volumes :
  foldl scanVolume noRefs volumes
  = {| volumesCM := volumes ≫= volumeNames;
       volumesProjectedCM := volumes ≫= projectedNames;
       envCM := []; envFromCM := []; envFromContainerCM := [] |}.
Proof.
  apply Refs_eq; simpl;
    rewrite (field_foldl _ scanVolume volumes appends_scanVolume);
    first [ by apply bind_nil_fun; intros x; rewrite scanVolume_noRefs
          | by apply list_bind_ext; [intros x; rewrite scanVolume_noRefs|] ].
Qed.

Lemma foldl_scanContainer_noRefs containers :
  foldl scanContainer noRefs containers
  = {| volumesCM := []; volumesProjectedCM := [];
       envCM := containers ≫= λ container, Env container ≫= envNames;
       envFromCM :=
         containers ≫= λ container, EnvFrom container ≫= envFromNames;
       envFromContainerCM :=
         containers ≫= λ container, EnvFrom container ≫= envFromNames |}.
Proof.
  apply Refs_eq; simpl;
    rewrite (field_foldl _ scanContainer containers appends_scanContainer);
    first [ by apply bind_nil_fun; intros x; rewrite scanContainer_noRefs
          | by apply list_bind_ext; [intros x; rewrite scanContainer_noRefs|] ].
Qed.

Lemma scanPod_noRefs pod :
  scanPod noRefs pod = collected [pod].
Proof.
  unfold scanPod, collected.
  rewrite (appends_foldl scanContainer appends_scanContainer).
  rewrite <- appends_foldl_noRefs by apply appends_scanContainer.
  rewrite foldl_scanVolume_noRefs, foldl_scanContainer_noRefs.
  unfold rapp; simpl. by rewrite ?bind_singleton, ?app_nil_r.
Qed.

(** The loops of retrieveVolumesAndEnv compute these comprehensions. *)
Lemma foldl_scanPod_collected pods :
  foldl scanPod noRefs pods = collected pods.
Proof.
  apply Refs_eq;
    rewrite (field_foldl _ scanPod pods appends_scanPod);
    (apply list_bind_ext; [|done]); intros pod;
    by rewrite scanPod_noRefs; simpl; rewrite ?bind_singleton, ?app_nil_r.
Qed.

Lemma retrieveVolumesAndEnv_ok clientset namespace pods :
  Pods_List clientset namespace = Ok pods →
  retrieveVolumesAndEnv clientset namespace
  = (volumesCM (collected pods), volumesProjectedCM (collected pods),
     envCM (collected pods), envFromCM (collected pods),
     envFromContainerCM (collected pods), None).
Proof.
  intros Hp. unfold retrieveVolumesAndEnv. rewrite Hp.
  by rewrite foldl_scanPod_collected.
Qed.

Lemma retrieveConfigMapNames_ok clientset namespace configmaps :
  ConfigMaps_List clientset namespace = Ok configmaps →
  retrieveConfigMapNames clientset namespace
  = (cm_Name <$> configmaps, None).
Proof.
  intros Hc. unfold retrieveConfigMapNames. rewrite Hc.
  by rewrite foldl_snoc_fmap.
Qed.

(** ** Membership in the partitions *)

Lemma elem_of_volumeNames c volume :
  c ∈ volumeNames volume ↔ ∃ cm, ConfigMap volume = Some cm ∧ Name cm = c.
Proof.
  unfold volumeNames. destruct (ConfigMap volume) as [cm|].
  - rewrite list_elem_of_singleton. split.
    + intros ->. eauto.
    + by intros (cm' & [= <-] & <-).
  - rewrite elem_of_nil. split; [done|]. by intros (? & ? & _).
Qed.

Lemma elem_of_sourceNames c source :
  c ∈ sourceNames source ↔ ∃ cm, vp_ConfigMap source = Some cm ∧ Name cm = c.
Proof.
  unfold sourceNames. destruct (vp_ConfigMap source) as [cm|].
  - rewrite list_elem_of_singleton. split.
    + intros ->. eauto.
    + by intros (cm' & [= <-] & <-).
  - rewrite elem_of_nil. split; [done|]. by intros (? & ? & _).
Qed.

Lemma elem_of_projectedNames c volume :
  c ∈ projectedNames volume
  ↔ ∃ projected source cm,
      Projected volume = Some projected ∧ source ∈ Sources projected ∧
      vp_ConfigMap source = Some cm ∧ Name cm = c.
Proof.
  unfold projectedNames. destruct (Projected volume) as [projected|].
  - rewrite list_elem_of_bind. split.
    + intros (source & (cm & ? & ?)%elem_of_sourceNames & ?).
      by exists projected, source, cm.
    + intros (? & source & cm & [= <-] & ? & ? & ?). exists source.
      split; [|done]. apply elem_of_sourceNames. eauto.
  - rewrite elem_of_nil. split; [done|]. by intros (? & ? & ? & ? & _).
Qed.

Lemma elem_of_envNames c env :
  c ∈ envNames env
  ↔ ∃ valueFrom ref,
      ValueFrom env = Some valueFrom ∧ ConfigMapKeyRef valueFrom = Some ref ∧
      Name ref = c.
Proof.
  unfold envNames. destruct (ValueFrom env) as [valueFrom|].
  - destruct (ConfigMapKeyRef valueFrom) as [ref|] eqn:Href.
    + rewrite list_elem_of_singleton. split.
      * intros ->. eauto.
      * intros (? & ? & [= <-] & Hr & <-). congruence.
    + rewrite elem_of_nil. split; [done|].
      intros (? & ? & [= <-] & Hr & _). congruence.
  - rewrite elem_of_nil. split; [done|]. by intros (? & ? & ? & _).
Qed.

Lemma elem_of_envFromNames c envFrom :
  c ∈ envFromNames envFrom
  ↔ ∃ ref, ConfigMapRef envFrom = Some ref ∧ Name ref = c.
Proof.
  unfold envFromNames. destruct (ConfigMapRef envFrom) as [ref|].
  - rewrite list_elem_of_singleton. split.
    + intros ->. eauto.
    + by intros (ref' & [= <-] & <-).
  - rewrite elem_of_nil. split; [done|]. by intros (? & ? & _).
Qed.

Lemma elem_of_volumesCM pods c :
  c ∈ volumesCM (collected pods) ↔ ∃ pod, pod ∈ pods ∧ refVolume c pod.
Proof.
  simpl. rewrite list_elem_of_bind. unfold refVolume. split.
  - intros (pod & (volume & (cm & ? & ?)%elem_of_volumeNames & ?)
                    %list_elem_of_bind & ?).
    exists pod. split; [done|]. by exists volume, cm.
  - intros (pod & ? & volume & cm & ? & ? & ?). exists pod. split; [|done].
    apply list_elem_of_bind. exists volume. split; [|done].
    apply elem_of_volumeNames. eauto.
Qed.

Lemma elem_of_volumesProjectedCM pods c :
  c ∈ volumesProjectedCM (collected pods)
  ↔ ∃ pod, pod ∈ pods ∧ refProjected c pod.
Proof.
  simpl. rewrite list_elem_of_bind. unfold refProjected. split.
  - intros (pod & (volume & (projected & source & cm & ? & ? & ? & ?)
                    %elem_of_projectedNames & ?)%list_elem_of_bind & ?).
    exists pod. split; [done|]. by exists volume, projected, source, cm.
  - intros (pod & ? & volume & projected & source & cm & ? & ? & ? & ? & ?).
    exists pod. split; [|done].
    apply list_elem_of_bind. exists volume. split; [|done].
    apply elem_of_projectedNames. by exists projected, source, cm.
Qed.

Lemma elem_of_envCM pods c :
  c ∈ envCM (collected pods) ↔ ∃ pod, pod ∈ pods ∧ refEnvMain c pod.
Proof.
  simpl. rewrite list_elem_of_bind. unfold refEnvMain, envRefIn. split.
  - intros (pod & (container & (env & (valueFrom & ref & ? & ? & ?)
       %elem_of_envNames & ?)%list_elem_of_bind & ?)%list_elem_of_bind & ?).
    exists pod. split; [done|]. by exists container, env, valueFrom, ref.
  - intros (pod & ? & container & env & valueFrom & ref & ? & ? & ? & ? & ?).
    exists pod. split; [|done].
    apply list_elem_of_bind. exists container. split; [|done].
    apply list_elem_of_bind. exists env. split; [|done].
    apply elem_of_envNames. by exists valueFrom, ref.
Qed.

Lemma elem_of_envFromCM pods c :
  c ∈ envFromCM (collected pods) ↔ ∃ pod, pod ∈ pods ∧ refEnvFromMain c pod.
Proof.
  simpl. rewrite list_elem_of_bind. unfold refEnvFromMain, envFromRefIn.
  split.
  - intros (pod & (container & (envFrom & (ref & ? & ?)
       %elem_of_envFromNames & ?)%list_elem_of_bind & ?)%list_elem_of_bind & ?).
    exists pod. split; [done|]. by exists container, envFrom, ref.
  - intros (pod & ? & container & envFrom & ref & ? & ? & ? & ?).
    exists pod. split; [|done].
    apply list_elem_of_bind. exists container. split; [|done].
    apply list_elem_of_bind. exists envFrom. split; [|done].
    apply elem_of_envFromNames. by exists ref.
Qed.

Lemma envFromContainerCM_collected pods :
  envFromContainerCM (collected pods) = envFromCM (collected pods).
Proof. done. Qed.

Lemma elem_of_usedConfigMaps_of pods c :
  c ∈ usedConfigMaps_of pods ↔ referencedMain pods c.
Proof.
  unfold usedConfigMaps_of, referencedMain.
  rewrite !elem_of_app, !sort_dedup_elem_of, envFromContainerCM_collected.
  rewrite elem_of_volumesCM, elem_of_volumesProjectedCM, elem_of_envCM,
    elem_of_envFromCM.
  split.
  - intros [[[[(pod & ? & ?)|(pod & ? & ?)]|(pod & ? & ?)]|(pod & ? & ?)]
           |(pod & ? & ?)]; exists pod; tauto.
  - intros (pod & ? & [?|[?|[?|?]]]); eauto 10.
Qed.

(** ** processNamespace *)

(** The difference that processNamespace reports depends on the two
    listings only, not on the runtime or its state. *)
Lemma unusedNames_fst rt clientset namespace s :
  (unusedNames rt clientset namespace s).1 = unusedNames_of clientset namespace.
Proof.
  unfold unusedNames, unusedNames_of, retrieveVolumesAndEnv,
    retrieveConfigMapNames.
  destruct (Pods_List clientset namespace) as [pods|err]; [|done].
  rewrite foldl_scanPod_collected.
  rewrite !removeDuplicatesAndSort_eq.
  destruct (ConfigMaps_List clientset namespace) as [configmaps|err]; [|done].
  by rewrite foldl_snoc_fmap.
Qed.

Lemma processNamespace_fst rt Render clientset namespace s :
  (processNamespace rt Render clientset namespace s).1
  = processNamespace_of Render clientset namespace.
Proof.
  unfold processNamespace, processNamespace_of.
  rewrite <- (unusedNames_fst rt clientset namespace s).
  destruct (unusedNames rt clientset namespace s) as [[diff [err|]] s'];
    done.
Qed.

Lemma unusedNames_of_ok clientset namespace pods configmaps :
  Pods_List clientset namespace = Ok pods →
  ConfigMaps_List clientset namespace = Ok configmaps →
  unusedNames_of clientset namespace
  = (calculateDifference (usedConfigMaps_of pods) (cm_Name <$> configmaps),
     None).
Proof. intros Hp Hc. unfold unusedNames_of. by rewrite Hp, Hc. Qed.

Lemma processNamespace_of_ok Render clientset namespace pods configmaps :
  Pods_List clientset namespace = Ok pods →
  ConfigMaps_List clientset namespace = Ok configmaps →
  processNamespace_of Render clientset namespace
  = (formatOutput Render namespace
       (calculateDifference (usedConfigMaps_of pods) (cm_Name <$> configmaps)),
     None).
Proof.
  intros Hp Hc. unfold processNamespace_of.
  by rewrite (unusedNames_of_ok _ _ pods configmaps).
Qed.

(** * The reference collector *)

(** C5: when the Pod listing of the namespace fails, retrieveVolumesAndEnv
    returns that error and five empty sequences: nothing that was collected
    is returned. *)
Theorem retrieveVolumesAndEnv_error clientset namespace err :
  Pods_List clientset namespace = Err err →
  retrieveVolumesAndEnv clientset namespace = ([], [], [], [], [], Some err).
Proof. intros Hp. unfold retrieveVolumesAndEnv. by rewrite Hp. Qed.

Lemma retrieveVolumesAndEnv_error_witness :
  Pods_List (ex_cluster []) "broken" = Err "timeout"%string ∧
  retrieveVolumesAndEnv (ex_cluster []) "broken"
  = ([], [], [], [], [], Some "timeout"%string).
Proof.
  split; [reflexivity|].
  apply (retrieveVolumesAndEnv_error (ex_cluster []) "broken" "timeout").
  reflexivity.
Defined.

(** C4: the fourth and the fifth sequence returned by
    retrieveVolumesAndEnv, filled by the two loops over the same
    [container.EnvFrom], are equal as sequences; so the fifth adds no name to
    the used ConfigMaps, and the difference is the same with and without it,
    whatever the order in which the runtime ranges over the maps. *)
Theorem envFrom_partitions_equal clientset namespace :
  let '(_, _, _, envFromCM, envFromContainerCM, _) :=
    retrieveVolumesAndEnv clientset namespace in
  envFromCM = envFromContainerCM ∧
  ∀ rt s s' (others configMapNames : list string),
    let fourth := (removeDuplicatesAndSort rt envFromCM s).1 in
    let fifth := (removeDuplicatesAndSort rt envFromContainerCM s').1 in
    fourth = fifth ∧
    (∀ x, x ∈ (others ++ fourth) ++ fifth ↔ x ∈ others ++ fourth) ∧
    calculateDifference ((others ++ fourth) ++ fifth) configMapNames
    = calculateDifference (others ++ fourth) configMapNames.
Proof.
  unfold retrieveVolumesAndEnv.
  destruct (Pods_List clientset namespace) as [pods|err].
  - rewrite foldl_scanPod_collected, envFromContainerCM_collected.
    split; [done|]. intros rt s s' others configMapNames.
    rewrite !removeDuplicatesAndSort_fst. simpl.
    assert (∀ x, x ∈ (others ++ sort_Strings (remove_dups (envFromCM (collected pods))))
                       ++ sort_Strings (remove_dups (envFromCM (collected pods)))
                 ↔ x ∈ others ++ sort_Strings (remove_dups (envFromCM (collected pods))))
      as Hset.
    { intros x. rewrite !elem_of_app. tauto. }
    split; [done|]. split; [done|]. by apply calculateDifference_ext.
  - split; [done|]. intros rt s s' others configMapNames.
    rewrite !removeDuplicatesAndSort_fst. simpl.
    split; [done|]. split; [intros x; rewrite !elem_of_app; tauto|].
    apply calculateDifference_ext. intros x. rewrite !elem_of_app. tauto.
Qed.

(** * The set differencer *)

(** C3: removeDuplicatesAndSort returns a list sorted in Go's order on
    strings, without duplicates, with the elements of its argument; and it
    returns the same list when the duplicates of the argument are removed
    first, whatever the runtime does. *)
Theorem removeDuplicatesAndSort_sorted_set rt (slice : list string) s :
  let out := (removeDuplicatesAndSort rt slice s).1 in
  Sorted String.le out ∧ NoDup out ∧ (∀ x, x ∈ out ↔ x ∈ slice) ∧
  ∀ rt' s', (removeDuplicatesAndSort rt' (remove_dups slice) s').1 = out.
Proof.
  simpl. rewrite removeDuplicatesAndSort_fst. split_and!.
  - apply sort_Strings_Sorted.
  - apply sort_dedup_NoDup.
  - apply sort_dedup_elem_of.
  - intros rt' s'. rewrite removeDuplicatesAndSort_fst.
    apply sort_Strings_proper. apply NoDup_Permutation.
    + apply NoDup_remove_dups.
    + apply NoDup_remove_dups.
    + intros x. by rewrite !elem_of_remove_dups.
Qed.

(** C10: calculateDifference keeps, in their order, exactly the occurrences
    of the inventory names that are not in the used list: its result is the
    inventory filtered by absence from the used list, hence a subsequence of
    the inventory in which every unused name occurs as often as in the
    inventory and no used name occurs; with an empty used list the inventory
    comes back as listed, neither sorted nor deduplicated. *)
Theorem calculateDifference_subsequence (usedConfigMaps configMapNames : list string) :
  calculateDifference usedConfigMaps configMapNames
  = filter (λ name, name ∉ usedConfigMaps) configMapNames ∧
  calculateDifference usedConfigMaps configMapNames `sublist_of` configMapNames ∧
  (∀ name,
    occurrences name (calculateDifference usedConfigMaps configMapNames)
    = if decide (name ∈ usedConfigMaps) then 0
      else occurrences name configMapNames) ∧
  calculateDifference [] configMapNames = configMapNames.
Proof.
  split_and!.
  - apply calculateDifference_filter.
  - apply calculateDifference_sublist.
  - intros name. rewrite calculateDifference_filter.
    destruct (decide (name ∈ usedConfigMaps)) as [Hin|Hnin].
    + apply occurrences_filter_out. auto.
    + by apply occurrences_filter_in.
  - apply calculateDifference_nil_used.
Qed.

Lemma envRefIn_app containers1 containers2 c :
  envRefIn (containers1 ++ containers2) c
  ↔ envRefIn containers1 c ∨ envRefIn containers2 c.
Proof.
  unfold envRefIn. split.
  - intros (container & env & valueFrom & ref & Hin & ?).
    apply elem_of_app in Hin as [Hin|Hin]; [left|right];
      by exists container, env, valueFrom, ref.
  - intros [(container & env & valueFrom & ref & Hin & ?)
           |(container & env & valueFrom & ref & Hin & ?)];
      exists container, env, valueFrom, ref;
      (split; [apply elem_of_app; auto|done]).
Qed.

Lemma envFromRefIn_app containers1 containers2 c :
  envFromRefIn (containers1 ++ containers2) c
  ↔ envFromRefIn containers1 c ∨ envFromRefIn containers2 c.
Proof.
  unfold envFromRefIn. split.
  - intros (container & envFrom & ref & Hin & ?).
    apply elem_of_app in Hin as [Hin|Hin]; [left|right];
      by exists container, envFrom, ref.
  - intros [(container & envFrom & ref & Hin & ?)
           |(container & envFrom & ref & Hin & ?)];
      exists container, envFrom, ref;
      (split; [apply elem_of_app; auto|done]).
Qed.

(** What the regular containers reference, the Pod references. *)
Lemma referencedMain_referenced pods c :
  referencedMain pods c → referenced pods c.
Proof.
  intros (pod & Hin & Href). exists pod. split; [done|].
  unfold refEnv, refEnvFrom, allContainers.
  rewrite envRefIn_app, envFromRefIn_app.
  unfold refEnvMain, refEnvFromMain in Href. tauto.
Qed.

(** Without init and ephemeral containers there is nothing else. *)
Lemma referenced_regularOnly pods c :
  Forall regularOnly pods → referenced pods c ↔ referencedMain pods c.
Proof.
  intros Hreg. split; [|apply referencedMain_referenced].
  intros (pod & Hin & Href). exists pod. split; [done|].
  destruct (proj1 (Forall_forall _ _) Hreg pod Hin) as [Hinit Heph].
  unfold refEnv, refEnvFrom, allContainers in Href.
  rewrite Hinit, Heph, !app_nil_r in Href. done.
Qed.

(** C1, as the code has it: when both listings of the namespace succeed,
    the names that processNamespace reports as unused are exactly the names
    of the inventory that no Pod of the namespace references through a
    volume, a projected volume source, or an environment variable or
    [envFrom] entry of one of its regular containers; when no Pod has init
    or ephemeral containers, these are exactly the names of the inventory
    that no Pod references through any of the four mechanisms. *)
Theorem unused_iff_unreferenced rt Render clientset namespace pods configmaps s :
  Pods_List clientset namespace = Ok pods →
  ConfigMaps_List clientset namespace = Ok configmaps →
  ∃ diff,
    (unusedNames rt clientset namespace s).1 = (diff, None) ∧
    (processNamespace rt Render clientset namespace s).1
    = (formatOutput Render namespace diff, None) ∧
    (∀ C, C ∈ diff
          ↔ C ∈ cm_Name <$> configmaps ∧ ¬ referencedMain pods C) ∧
    (Forall regularOnly pods →
     ∀ C, C ∈ diff ↔ C ∈ cm_Name <$> configmaps ∧ ¬ referenced pods C).
Proof.
  intros Hp Hc.
  exists (calculateDifference (usedConfigMaps_of pods) (cm_Name <$> configmaps)).
  split_and!.
  - rewrite unusedNames_fst. by apply unusedNames_of_ok.
  - rewrite processNamespace_fst. by apply processNamespace_of_ok.
  - intros C.
    by rewrite calculateDifference_elem_of, elem_of_usedConfigMaps_of.
  - intros Hreg C.
    by rewrite calculateDifference_elem_of, elem_of_usedConfigMaps_of,
      referenced_regularOnly.
Qed.

Lemma unused_iff_unreferenced_witness :
  let clientset :=
    ex_cluster ["unused-cm"; "db-secrets"; "app-config"]%string in
  let configmaps :=
    (λ n, {| cm_Name := n |}) <$>
      ["unused-cm"; "db-secrets"; "app-config"]%string in
  Pods_List clientset "default" = Ok [ex_pod; ex_pod] ∧
  ConfigMaps_List clientset "default" = Ok configmaps ∧
  Forall regularOnly [ex_pod; ex_pod] ∧
  ∃ diff,
    (unusedNames rt_flipping clientset "default" true).1 = (diff, None) ∧
    (processNamespace rt_flipping ex_render clientset "default" true).1
    = (formatOutput ex_render "default" diff, None) ∧
    (∀ C, C ∈ diff
          ↔ C ∈ cm_Name <$> configmaps
            ∧ ¬ referencedMain [ex_pod; ex_pod] C) ∧
    (∀ C, C ∈ diff
          ↔ C ∈ cm_Name <$> configmaps ∧ ¬ referenced [ex_pod; ex_pod] C).
Proof.
  intros clientset configmaps.
  assert (Forall regularOnly [ex_pod; ex_pod]) as Hreg
    by (repeat constructor).
  split; [reflexivity|]. split; [reflexivity|]. split; [exact Hreg|].
  destruct (unused_iff_unreferenced rt_flipping ex_render clientset "default"
              [ex_pod; ex_pod] configmaps true eq_refl eq_refl)
    as (diff & Hdiff & Hout & Hmain & Hall).
  exists diff. split; [exact Hdiff|]. split; [exact Hout|].
  split; [exact Hmain|]. exact (Hall Hreg).
Defined.

(** C1, as stated, fails: a Pod whose init container imports init-cm with
    [envFrom] references init-cm, and init-cm, the only name of the
    inventory, is still reported as unused. *)
Lemma unused_but_referenced_counterexample :
  let clientset := ex_cluster_pods [ex_pod_init] ["init-cm"]%string in
  Pods_List clientset "default" = Ok [ex_pod_init] ∧
  ConfigMaps_List clientset "default" = Ok [ {| cm_Name := "init-cm" |} ] ∧
  (unusedNames rt_listing clientset "default" tt).1
  = (["init-cm"]%string, None) ∧
  referenced [ex_pod_init] "init-cm" ∧
  ¬ ("init-cm"%string ∈ ["init-cm"]%string
     ↔ "init-cm"%string ∈ ["init-cm"]%string
       ∧ ¬ referenced [ex_pod_init] "init-cm").
Proof.
  intros clientset.
  assert (referenced [ex_pod_init] "init-cm") as Href.
  { exists ex_pod_init. split; [apply elem_of_cons; auto|].
    right. right. right.
    exists {| Env := [];
              EnvFrom := [ {| ConfigMapRef := cmref "init-cm" |} ] |},
           {| ConfigMapRef := cmref "init-cm" |}, {| Name := "init-cm" |}.
    split_and!; [|apply elem_of_cons; auto|done|done].
    unfold allContainers. simpl. rewrite !elem_of_cons. auto. }
  split; [reflexivity|]. split; [reflexivity|]. split; [by vm_compute|].
  split; [exact Href|].
  intros [Hiff _]. destruct Hiff as [_ Hnot]; [apply elem_of_cons; auto|].
  by apply Hnot.
Qed.

(** C2, as the code has it: the names reported as unused are the names of
    the inventory listing that no Pod references through a volume, a
    projected volume source, or an environment variable or [envFrom] entry
    of a regular container, in the order of the listing and each as often
    as it is listed; so they are sorted and without duplicates when the
    inventory listing is, whatever the Pods reference and however often. *)
Theorem unused_sorted_of_sorted_inventory rt clientset namespace pods configmaps s :
  Pods_List clientset namespace = Ok pods →
  ConfigMaps_List clientset namespace = Ok configmaps →
  ∃ diff,
    (unusedNames rt clientset namespace s).1 = (diff, None) ∧
    diff `sublist_of` (cm_Name <$> configmaps) ∧
    (∀ name, referencedMain pods name → occurrences name diff = 0) ∧
    (∀ name, ¬ referencedMain pods name →
             occurrences name diff
             = occurrences name (cm_Name <$> configmaps)) ∧
    (Sorted String.le (cm_Name <$> configmaps) →
     NoDup (cm_Name <$> configmaps) →
     Sorted String.le diff ∧ NoDup diff).
Proof.
  intros Hp Hc.
  exists (calculateDifference (usedConfigMaps_of pods) (cm_Name <$> configmaps)).
  split_and!.
  - rewrite unusedNames_fst. by apply unusedNames_of_ok.
  - apply calculateDifference_sublist.
  - intros name Href. rewrite calculateDifference_filter.
    apply occurrences_filter_out. intros Hnot. apply Hnot.
    by apply elem_of_usedConfigMaps_of.
  - intros name Href. rewrite calculateDifference_filter.
    apply occurrences_filter_in. by rewrite elem_of_usedConfigMaps_of.
  - intros Hsorted Hnodup. split.
    + eapply Sorted_le_sublist; [apply calculateDifference_sublist|done].
    + eapply sublist_NoDup; [done|apply calculateDifference_sublist].
Qed.

Lemma unused_sorted_of_sorted_inventory_witness :
  let clientset :=
    ex_cluster ["app-config"; "db-secrets"; "unused-a"; "unused-b"]%string in
  let configmaps :=
    (λ n, {| cm_Name := n |}) <$>
      ["app-config"; "db-secrets"; "unused-a"; "unused-b"]%string in
  Pods_List clientset "default" = Ok [ex_pod; ex_pod] ∧
  ConfigMaps_List clientset "default" = Ok configmaps ∧
  Sorted String.le (cm_Name <$> configmaps) ∧
  NoDup (cm_Name <$> configmaps) ∧
  ∃ diff,
    (unusedNames rt_flipping clientset "default" true).1 = (diff, None) ∧
    diff `sublist_of` (cm_Name <$> configmaps) ∧
    (∀ name, referencedMain [ex_pod; ex_pod] name →
             occurrences name diff = 0) ∧
    (∀ name, ¬ referencedMain [ex_pod; ex_pod] name →
             occurrences name diff
             = occurrences name (cm_Name <$> configmaps)) ∧
    Sorted String.le diff ∧ NoDup diff.
Proof.
  intros clientset configmaps.
  assert (Sorted String.le (cm_Name <$> configmaps)) as Hsorted
    by (apply (bool_decide_unpack _); vm_compute; exact I).
  assert (NoDup (cm_Name <$> configmaps)) as Hnodup
    by (apply (bool_decide_unpack _); vm_compute; exact I).
  split; [reflexivity|]. split; [reflexivity|].
  split; [exact Hsorted|]. split; [exact Hnodup|].
  destruct (unused_sorted_of_sorted_inventory rt_flipping clientset "default"
              [ex_pod; ex_pod] configmaps true eq_refl eq_refl)
    as (diff & Hdiff & Hsub & Hzero & Hkeep & Hsort).
  exists diff. split; [exact Hdiff|]. split; [exact Hsub|].
  split; [exact Hzero|]. split; [exact Hkeep|]. exact (Hsort Hsorted Hnodup).
Defined.

(** C2, as stated, fails: with the inventory listed as b, a, b and no Pod,
    the names reported as unused are b, a, b, which is neither sorted nor
    free of duplicates. *)
Lemma unused_not_sorted_counterexample :
  Pods_List (ex_cluster ["b"; "a"; "b"]%string) "other" = Ok [] ∧
  (unusedNames rt_listing (ex_cluster ["b"; "a"; "b"]%string) "other" tt).1
  = (["b"; "a"; "b"]%string, None) ∧
  ¬ Sorted String.le ["b"; "a"; "b"]%string ∧
  ¬ NoDup ["b"; "a"; "b"]%string.
Proof.
  split; [reflexivity|]. split; [by vm_compute|].
  split; apply (bool_decide_eq_false_1 _); by vm_compute.
Qed.

(** * The reporter *)

(** C6: for an empty sequence of names formatOutput returns the one-line
    message naming the namespace; processNamespace returns it whenever the
    inventory of the namespace is empty, whatever the Pods reference. *)
Theorem formatOutput_empty Render namespace :
  formatOutput Render namespace [] = noneFound namespace ∧
  noneFound namespace
  = "No unused config maps found in the namespace: "%string +:+ namespace ∧
  ∀ rt clientset pods s,
    Pods_List clientset namespace = Ok pods →
    ConfigMaps_List clientset namespace = Ok [] →
    (processNamespace rt Render clientset namespace s).1
    = (noneFound namespace, None).
Proof.
  split; [done|]. split; [done|]. intros rt clientset pods s Hp Hc.
  rewrite processNamespace_fst.
  by rewrite (processNamespace_of_ok Render clientset namespace pods []).
Qed.

Lemma formatOutput_empty_witness :
  Pods_List (ex_cluster []) "default" = Ok [ex_pod; ex_pod] ∧
  ConfigMaps_List (ex_cluster []) "default" = Ok [] ∧
  (processNamespace rt_flipping ex_render (ex_cluster []) "default" false).1
  = ("No unused config maps found in the namespace: default"%string, None).
Proof.
  split; [reflexivity|]. split; [reflexivity|].
  apply (proj2 (proj2 (formatOutput_empty ex_render "default"))
           rt_flipping (ex_cluster []) [ex_pod; ex_pod] false);
    reflexivity.
Defined.

Lemma foldl_Append_enumerate (configMapNames : list string) (k : nat) table :
  foldl (λ table '(i, name), Append table [Sprintf_d (Z.of_nat i + 1); name])
        table (zip (seq k (length configMapNames)) configMapNames)
  = {| headers := headers table;
       lines := lines table
                ++ imap (λ i name, [Sprintf_d (Z.of_nat (k + i) + 1); name])
                        configMapNames |}.
Proof.
  revert k table.
  induction configMapNames as [|name rest IH]; intros k table; simpl.
  - rewrite app_nil_r. by destruct table.
  - rewrite IH. simpl. rewrite <- app_assoc. simpl.
    rewrite Nat.add_0_r. do 3 f_equal.
    apply imap_ext. intros i x _. simpl. by rewrite Nat.add_succ_r.
Qed.

(** C7: for a non-empty sequence of names formatOutput returns the header
    line naming the namespace followed by the rendering of a table whose
    columns are "#" and "Config Map Name" and whose rows are, in the order
    of the sequence, one per name: the name at position i (from 0) with the
    number i + 1 in decimal. *)
Theorem formatOutput_table Render namespace (configMapNames : list string) :
  configMapNames ≠ [] →
  formatOutput Render namespace configMapNames
  = "Unused Config Maps in Namespace: "%string +:+ namespace +:+ LF
      +:+ Render (unusedTable configMapNames) ∧
  headers (unusedTable configMapNames)
  = ["#"%string; "Config Map Name"%string] ∧
  length (lines (unusedTable configMapNames)) = length configMapNames ∧
  ∀ i name,
    configMapNames !! i = Some name →
    lines (unusedTable configMapNames) !! i
    = Some [Sprintf_d (Z.of_nat i + 1); name].
Proof.
  intros Hne. split_and!.
  - unfold formatOutput. rewrite decide_False.
    + unfold enumerate. by rewrite foldl_Append_enumerate.
    + by destruct configMapNames.
  - done.
  - simpl. apply length_imap.
  - intros i name Hi. simpl. by rewrite list_lookup_imap, Hi.
Qed.

Lemma formatOutput_table_witness :
  ["unused-a"; "unused-b"]%string ≠ [] ∧
  formatOutput ex_render "default" ["unused-a"; "unused-b"]%string
  = "Unused Config Maps in Namespace: "%string +:+ "default"%string +:+ LF
      +:+ ex_render (unusedTable ["unused-a"; "unused-b"]%string) ∧
  headers (unusedTable ["unused-a"; "unused-b"]%string)
  = ["#"%string; "Config Map Name"%string] ∧
  length (lines (unusedTable ["unused-a"; "unused-b"]%string)) = 2 ∧
  ∀ i name,
    ["unused-a"; "unused-b"]%string !! i = Some name →
    lines (unusedTable ["unused-a"; "unused-b"]%string) !! i
    = Some [Sprintf_d (Z.of_nat i + 1); name].
Proof.
  split; [discriminate|].
  apply (formatOutput_table ex_render "default"
           ["unused-a"; "unused-b"]%string).
  discriminate.
Defined.

(** * The pipeline *)

(** C8: what processNamespace returns for a namespace is determined by the
    Pods and ConfigMaps listed for it: two runs return the same string and
    the same error, whatever order the runtime of each run picks when
    ranging over the maps. *)
Theorem processNamespace_deterministic rt1 rt2 Render clientset namespace s1 s2 :
  (processNamespace rt1 Render clientset namespace s1).1
  = (processNamespace rt2 Render clientset namespace s2).1.
Proof. by rewrite !processNamespace_fst. Qed.

(** * The driver *)

Lemma String_app_assoc (a b c : string) : (a +:+ b) +:+ c = a +:+ (b +:+ c).
Proof.
  induction a as [|x a IH]; [done|].
  change (String x ((a +:+ b) +:+ c) = String x (a +:+ (b +:+ c))).
  by rewrite IH.
Qed.

Lemma String_app_nil_r (a : string) : a +:+ EmptyString = a.
Proof.
  induction a as [|x a IH]; [done|].
  change (String x (a +:+ EmptyString) = String x a). by rewrite IH.
Qed.

Lemma stderrBlock_alt Render clientset namespace :
  stderrBlock clientset namespace
  = match processNamespace_of Render clientset namespace with
    | (_, Some err) =>
        "Failed to process namespace "%string +:+ namespace +:+ ": "%string
          +:+ err +:+ LF
    | (_, None) => EmptyString
    end.
Proof.
  unfold stderrBlock, processNamespace_of.
  by destruct (unusedNames_of clientset namespace) as [diff [err|]].
Qed.

Lemma namespaceLoop_fst rt Render clientset namespaces out errs s :
  (namespaceLoop rt Render clientset namespaces out errs s).1
  = (out +:+ joinBlocks (stdoutBlock Render clientset <$> namespaces),
     errs +:+ joinBlocks (stderrBlock clientset <$> namespaces)).
Proof.
  unfold namespaceLoop. revert out errs s.
  induction namespaces as [|namespace rest IH]; intros out errs s.
  - simpl. by rewrite !String_app_nil_r.
  - rewrite !fmap_cons. cbn [foldl joinBlocks foldr].
    rewrite (stderrBlock_alt Render). unfold stdoutBlock.
    rewrite <- (processNamespace_fst rt Render clientset namespace s).
    destruct (processNamespace rt Render clientset namespace s)
      as [[output [err|]] s']; cbn [fst]; rewrite IH.
    + by rewrite ?String_app_assoc.
    + by rewrite ?String_app_assoc.
Qed.

(** C9: the loop of GetUnusedConfigmaps adds to standard output, for each
    namespace in the order of the list, either the whole report of the
    namespace followed by an empty line, when both of its listings succeed,
    or nothing, when its Pod listing or its ConfigMap listing fails; a
    namespace that fails adds one line to standard error and does not stop
    the loop. *)
Theorem namespace_failure_skips_only_that_namespace rt Render clientset namespaces out errs s :
  (namespaceLoop rt Render clientset namespaces out errs s).1
  = (out +:+ joinBlocks (stdoutBlock Render clientset <$> namespaces),
     errs +:+ joinBlocks (stderrBlock clientset <$> namespaces)) ∧
  ∀ namespace,
    match Pods_List clientset namespace, ConfigMaps_List clientset namespace with
    | Ok pods, Ok configmaps =>
        stdoutBlock Render clientset namespace
        = formatOutput Render namespace
            (calculateDifference (usedConfigMaps_of pods)
                                 (cm_Name <$> configmaps))
            +:+ LF +:+ LF ∧
        stderrBlock clientset namespace = EmptyString
    | Err err, _ | Ok _, Err err =>
        stdoutBlock Render clientset namespace = EmptyString ∧
        stderrBlock clientset namespace
        = "Failed to process namespace "%string +:+ namespace
            +:+ ": "%string +:+ err +:+ LF
    end.
Proof.
  split; [apply namespaceLoop_fst|]. intros namespace.
  unfold stdoutBlock, stderrBlock, processNamespace_of, unusedNames_of.
  destruct (Pods_List clientset namespace) as [pods|err]; [|done].
  by destruct (ConfigMaps_List clientset namespace) as [configmaps|err].
Qed.

(** When the setup succeeds, GetUnusedConfigmaps writes the blocks of the
    namespaces, in the order in which they were listed, and exits with 0. *)
Lemma GetUnusedConfigmaps_ok rt Render host config clientset namespaceList s :
  BuildConfigFromFlags host EmptyString (getKubeConfigPath host) = Ok config →
  NewForConfig host config = Ok clientset →
  Namespaces_List clientset = Ok namespaceList →
  GetUnusedConfigmaps rt Render host s
  = {| stdout := joinBlocks (stdoutBlock Render clientset
                               <$> (ns_Name <$> namespaceList));
       stderr := joinBlocks (stderrBlock clientset
                               <$> (ns_Name <$> namespaceList));
       exitCode := 0 |}.
Proof.
  intros Hb Hn Hl. unfold GetUnusedConfigmaps. rewrite Hb, Hn, Hl.
  rewrite foldl_snoc_fmap. simpl.
  pose proof (namespaceLoop_fst rt Render clientset (ns_Name <$> namespaceList)
                EmptyString EmptyString s) as Hloop.
  destruct (namespaceLoop rt Render clientset (ns_Name <$> namespaceList)
              EmptyString EmptyString s) as [[out errs] s'].
  simpl in Hloop. by injection Hloop as -> ->.
Qed.

(** * Further properties of removeDuplicatesAndSort *)

Lemma sort_dedup_ext (l1 l2 : list string) :
  (∀ x, x ∈ l1 ↔ x ∈ l2) →
  sort_Strings (remove_dups l1) = sort_Strings (remove_dups l2).
Proof.
  intros Heq. apply sort_Strings_proper. apply NoDup_Permutation.
  - apply NoDup_remove_dups.
  - apply NoDup_remove_dups.
  - intros x. by rewrite !elem_of_remove_dups.
Qed.

Lemma sort_dedup_fixed (l : list string) :
  Sorted String.le l → NoDup l → sort_Strings (remove_dups l) = l.
Proof.
  intros Hsorted Hnodup. symmetry. apply sort_Strings_unique; [done|].
  apply NoDup_Permutation; [done|apply NoDup_remove_dups|].
  intros x. by rewrite elem_of_remove_dups.
Qed.

Lemma length_remove_dups (l : list string) :
  length (remove_dups l) ≤ length l.
Proof.
  induction l as [|x l IH]; simpl; [done|].
  destruct (decide_rel elem_of x l); simpl; lia.
Qed.

Lemma length_remove_dups_eq (l : list string) :
  length (remove_dups l) = length l ↔ NoDup l.
Proof.
  induction l as [|x l IH]; simpl.
  - split; [constructor|done].
  - pose proof (length_remove_dups l) as Hle.
    destruct (decide_rel elem_of x l) as [Hin|Hnin]; simpl.
    + split; [lia|]. intros Hnd. by apply NoDup_cons in Hnd as [? _].
    + rewrite NoDup_cons. split.
      * intros Hlen. split; [done|]. apply IH. lia.
      * intros [_ Hnd]. apply IH in Hnd. lia.
Qed.

(** X1: what removeDuplicatesAndSort returns depends only on which strings
    occur in its argument, not on their order or on how often they occur,
    and not on the runtime. *)
Theorem removeDuplicatesAndSort_set_only rt1 rt2 (slice1 slice2 : list string) s1 s2 :
  (∀ x, x ∈ slice1 ↔ x ∈ slice2) →
  (removeDuplicatesAndSort rt1 slice1 s1).1
  = (removeDuplicatesAndSort rt2 slice2 s2).1.
Proof.
  intros Heq. rewrite !removeDuplicatesAndSort_fst. by apply sort_dedup_ext.
Qed.

Lemma removeDuplicatesAndSort_set_only_witness :
  (∀ x, x ∈ ["b"; "a"; "b"]%string ↔ x ∈ ["a"; "b"; "a"; "a"]%string) ∧
  (removeDuplicatesAndSort rt_listing ["b"; "a"; "b"]%string tt).1
  = (removeDuplicatesAndSort rt_flipping ["a"; "b"; "a"; "a"]%string true).1.
Proof.
  assert (∀ x, x ∈ ["b"; "a"; "b"]%string ↔ x ∈ ["a"; "b"; "a"; "a"]%string)
    as Heq.
  { intros x. rewrite !elem_of_cons, !elem_of_nil. tauto. }
  split; [exact Heq|].
  apply (removeDuplicatesAndSort_set_only rt_listing rt_flipping
           ["b"; "a"; "b"]%string ["a"; "b"; "a"; "a"]%string tt true Heq).
Defined.

(** X2: removeDuplicatesAndSort returns its argument unchanged when the
    argument is already sorted and without duplicates. *)
Theorem removeDuplicatesAndSort_fixed rt (slice : list string) s :
  Sorted String.le slice → NoDup slice →
  (removeDuplicatesAndSort rt slice s).1 = slice.
Proof.
  intros Hsorted Hnodup. rewrite removeDuplicatesAndSort_fst.
  by apply sort_dedup_fixed.
Qed.

Lemma removeDuplicatesAndSort_fixed_witness :
  Sorted String.le ["a"; "ab"; "b"]%string ∧
  NoDup ["a"; "ab"; "b"]%string ∧
  (removeDuplicatesAndSort rt_flipping ["a"; "ab"; "b"]%string true).1
  = ["a"; "ab"; "b"]%string.
Proof.
  assert (Sorted String.le ["a"; "ab"; "b"]%string) as Hsorted
    by (apply (bool_decide_unpack _); vm_compute; exact I).
  assert (NoDup ["a"; "ab"; "b"]%string) as Hnodup
    by (apply (bool_decide_unpack _); vm_compute; exact I).
  split; [exact Hsorted|]. split; [exact Hnodup|].
  apply (removeDuplicatesAndSort_fixed rt_flipping ["a"; "ab"; "b"]%string
           true Hsorted Hnodup).
Defined.

(** X3: removeDuplicatesAndSort is idempotent: applied to its own result it
    returns that result. *)
Theorem removeDuplicatesAndSort_idempotent rt rt' (slice : list string) s s' :
  (removeDuplicatesAndSort rt'
     (removeDuplicatesAndSort rt slice s).1 s').1
  = (removeDuplicatesAndSort rt slice s).1.
Proof.
  rewrite !removeDuplicatesAndSort_fst. apply sort_dedup_fixed.
  - apply sort_Strings_Sorted.
  - apply sort_dedup_NoDup.
Qed.

(** X4: the result of removeDuplicatesAndSort is never longer than its
    argument, and has the same length exactly when the argument has no
    duplicates. *)
Theorem removeDuplicatesAndSort_length rt (slice : list string) s :
  length (removeDuplicatesAndSort rt slice s).1 ≤ length slice ∧
  (length (removeDuplicatesAndSort rt slice s).1 = length slice
   ↔ NoDup slice).
Proof.
  rewrite removeDuplicatesAndSort_fst.
  rewrite (Permutation_length (sort_Strings_perm (remove_dups slice))).
  split; [apply length_remove_dups|apply length_remove_dups_eq].
Qed.

(** * Further properties of calculateDifference *)

Lemma calculateDifference_nil_iff usedConfigMaps configMapNames :
  calculateDifference usedConfigMaps configMapNames = []
  ↔ ∀ name, name ∈ configMapNames → name ∈ usedConfigMaps.
Proof.
  split.
  - intros Hnil name Hin.
    destruct (decide (name ∈ usedConfigMaps)) as [|Hnot]; [done|].
    assert (name ∈ calculateDifference usedConfigMaps configMapNames) as Hd
      by (by apply calculateDifference_elem_of).
    rewrite Hnil in Hd. by apply elem_of_nil in Hd.
  - intros Hall.
    destruct (calculateDifference usedConfigMaps configMapNames)
      as [|name rest] eqn:Hd; [done|].
    assert (name ∈ calculateDifference usedConfigMaps configMapNames) as Hin
      by (rewrite Hd; apply elem_of_cons; auto).
    apply calculateDifference_elem_of in Hin as [Hin Hnot].
    by destruct Hnot; apply Hall.
Qed.

(** X5: calculateDifference returns the empty list exactly when every name
    of the inventory occurs in the used list; in particular for an empty
    inventory. *)
Theorem calculateDifference_empty_iff (usedConfigMaps configMapNames : list string) :
  (calculateDifference usedConfigMaps configMapNames = []
   ↔ ∀ name, name ∈ configMapNames → name ∈ usedConfigMaps) ∧
  calculateDifference usedConfigMaps [] = [].
Proof. split; [apply calculateDifference_nil_iff|done]. Qed.

(** X6: the result of calculateDifference depends only on which names occur
    in the used list: reordering it or repeating names in it changes
    nothing. *)
Theorem calculateDifference_used_set_only (used1 used2 configMapNames : list string) :
  (∀ x, x ∈ used1 ↔ x ∈ used2) →
  calculateDifference used1 configMapNames
  = calculateDifference used2 configMapNames.
Proof. apply calculateDifference_ext. Qed.

Lemma calculateDifference_used_set_only_witness :
  (∀ x, x ∈ ["b"; "a"; "b"]%string ↔ x ∈ ["a"; "b"]%string) ∧
  calculateDifference ["b"; "a"; "b"]%string ["c"; "a"; "d"]%string
  = calculateDifference ["a"; "b"]%string ["c"; "a"; "d"]%string.
Proof.
  assert (∀ x, x ∈ ["b"; "a"; "b"]%string ↔ x ∈ ["a"; "b"]%string) as Heq.
  { intros x. rewrite !elem_of_cons, !elem_of_nil. tauto. }
  split; [exact Heq|].
  apply (calculateDifference_used_set_only ["b"; "a"; "b"]%string
           ["a"; "b"]%string ["c"; "a"; "d"]%string Heq).
Defined.

(** X7: calculateDifference works name by name on the inventory: the
    difference of a concatenated inventory is the concatenation of the
    differences, and the result is never longer than the inventory. *)
Theorem calculateDifference_app_inventory (usedConfigMaps names1 names2 : list string) :
  calculateDifference usedConfigMaps (names1 ++ names2)
  = calculateDifference usedConfigMaps names1
    ++ calculateDifference usedConfigMaps names2 ∧
  length (calculateDifference usedConfigMaps names1) ≤ length names1.
Proof.
  rewrite !calculateDifference_filter. split.
  - apply filter_app.
  - apply length_filter.
Qed.

(** X8: removing the names of two used lists at once is removing those of
    one list and then those of the other, in either order; removing the same
    used list twice is removing it once. *)
Theorem calculateDifference_compose (used1 used2 configMapNames : list string) :
  calculateDifference (used1 ++ used2) configMapNames
  = calculateDifference used1 (calculateDifference used2 configMapNames) ∧
  calculateDifference (used1 ++ used2) configMapNames
  = calculateDifference used2 (calculateDifference used1 configMapNames) ∧
  calculateDifference used1 (calculateDifference used1 configMapNames)
  = calculateDifference used1 configMapNames.
Proof.
  assert (∀ u1 u2 (names : list string),
            calculateDifference (u1 ++ u2) names
            = calculateDifference u1 (calculateDifference u2 names)) as Hcomp.
  { intros u1 u2 names. rewrite !calculateDifference_filter.
    rewrite list_filter_filter. apply list_filter_iff.
    intros x. rewrite elem_of_app. tauto. }
  split_and!.
  - apply Hcomp.
  - rewrite <- Hcomp. apply calculateDifference_ext.
    intros x. rewrite !elem_of_app. tauto.
  - rewrite <- Hcomp. apply calculateDifference_ext.
    intros x. rewrite !elem_of_app. tauto.
Qed.

(** * excludeListContains *)

(** X9: excludeListContains answers true exactly when the namespace is an
    element of the list. *)
Theorem excludeListContains_iff (excludeList : list string) (namespace : string) :
  excludeListContains excludeList namespace = true ↔ namespace ∈ excludeList.
Proof.
  induction excludeList as [|excluded rest IH]; cbn [excludeListContains].
  - rewrite elem_of_nil. split; [discriminate|done].
  - rewrite elem_of_cons.
    destruct (String.eqb_spec excluded namespace) as [->|Hne].
    + split; auto.
    + rewrite IH. split; [auto|]. intros [->|?]; [done|done].
Qed.

(** * Further properties of the reference collector *)

(** X10: retrieveConfigMapNames returns the names of the listed ConfigMaps
    in the order of the listing, one per ConfigMap, repeats included, with a
    nil error; when the listing fails it returns no name and the error. *)
Theorem retrieveConfigMapNames_result clientset namespace :
  match ConfigMaps_List clientset namespace with
  | Ok configmaps =>
      retrieveConfigMapNames clientset namespace
      = (cm_Name <$> configmaps, None) ∧
      length (retrieveConfigMapNames clientset namespace).1
      = length configmaps
  | Err err => retrieveConfigMapNames clientset namespace = ([], Some err)
  end.
Proof.
  unfold retrieveConfigMapNames.
  destruct (ConfigMaps_List clientset namespace) as [configmaps|err];
    [|done].
  rewrite foldl_snoc_fmap. simpl. split; [done|apply length_fmap].
Qed.

(** X11: when the Pod listing succeeds, each of the five sequences returned
    by retrieveVolumesAndEnv lists the names Pod by Pod in the order of the
    listing, within a Pod volume by volume (source by source) or container
    by container (entry by entry), keeping every repeat; the error is nil. *)
Theorem retrieveVolumesAndEnv_sequences clientset namespace pods :
  Pods_List clientset namespace = Ok pods →
  retrieveVolumesAndEnv clientset namespace
  = (pods ≫= (λ pod, Volumes (Spec pod) ≫= volumeNames),
     pods ≫= (λ pod, Volumes (Spec pod) ≫= projectedNames),
     pods ≫= (λ pod, Containers (Spec pod) ≫= λ container,
                Env container ≫= envNames),
     pods ≫= (λ pod, Containers (Spec pod) ≫= λ container,
                EnvFrom container ≫= envFromNames),
     pods ≫= (λ pod, Containers (Spec pod) ≫= λ container,
                EnvFrom container ≫= envFromNames),
     None).
Proof. intros Hp. by rewrite (retrieveVolumesAndEnv_ok _ _ pods Hp). Qed.

Lemma retrieveVolumesAndEnv_sequences_witness :
  Pods_List (ex_cluster []) "default" = Ok [ex_pod; ex_pod] ∧
  retrieveVolumesAndEnv (ex_cluster []) "default"
  = (["app-config"; "app-config"]%string,
     ["proj"; "proj"]%string,
     ["envcm"; "envcm"]%string,
     ["db-secrets"; "app-config"; "db-secrets"; "app-config"]%string,
     ["db-secrets"; "app-config"; "db-secrets"; "app-config"]%string,
     None).
Proof.
  split; [reflexivity|].
  apply (retrieveVolumesAndEnv_sequences (ex_cluster []) "default"
           [ex_pod; ex_pod]).
  reflexivity.
Defined.

(** X12: when the Pod listing succeeds, a name is in the first sequence
    exactly when some Pod has a volume with that ConfigMap source, in the
    second exactly when some Pod has a projected volume with such a source,
    in the third exactly when some regular container (one of
    [spec.containers]) has an environment variable with that ConfigMap key
    reference, and in the fourth, as in the fifth, exactly when some regular
    container has an [envFrom] entry with that ConfigMap reference; init and
    ephemeral containers contribute to none of them. *)
Theorem partitions_match_mechanisms clientset namespace pods :
  Pods_List clientset namespace = Ok pods →
  let '(volumesCM, volumesProjectedCM, envCM, envFromCM,
        envFromContainerCM, _) :=
    retrieveVolumesAndEnv clientset namespace in
  ∀ c,
    (c ∈ volumesCM ↔ ∃ pod, pod ∈ pods ∧ refVolume c pod) ∧
    (c ∈ volumesProjectedCM ↔ ∃ pod, pod ∈ pods ∧ refProjected c pod) ∧
    (c ∈ envCM ↔ ∃ pod, pod ∈ pods ∧ refEnvMain c pod) ∧
    (c ∈ envFromCM ↔ ∃ pod, pod ∈ pods ∧ refEnvFromMain c pod) ∧
    (c ∈ envFromContainerCM ↔ ∃ pod, pod ∈ pods ∧ refEnvFromMain c pod).
Proof.
  intros Hp. rewrite (retrieveVolumesAndEnv_ok _ _ pods Hp). intros c.
  rewrite envFromContainerCM_collected. split_and!.
  - apply elem_of_volumesCM.
  - apply elem_of_volumesProjectedCM.
  - apply elem_of_envCM.
  - apply elem_of_envFromCM.
  - apply elem_of_envFromCM.
Qed.

Lemma partitions_match_mechanisms_witness :
  Pods_List (ex_cluster []) "default" = Ok [ex_pod; ex_pod] ∧
  let '(volumesCM, volumesProjectedCM, envCM, envFromCM,
        envFromContainerCM, _) :=
    retrieveVolumesAndEnv (ex_cluster []) "default" in
  ∀ c,
    (c ∈ volumesCM ↔ ∃ pod, pod ∈ [ex_pod; ex_pod] ∧ refVolume c pod) ∧
    (c ∈ volumesProjectedCM
     ↔ ∃ pod, pod ∈ [ex_pod; ex_pod] ∧ refProjected c pod) ∧
    (c ∈ envCM ↔ ∃ pod, pod ∈ [ex_pod; ex_pod] ∧ refEnvMain c pod) ∧
    (c ∈ envFromCM ↔ ∃ pod, pod ∈ [ex_pod; ex_pod] ∧ refEnvFromMain c pod) ∧
    (c ∈ envFromContainerCM
     ↔ ∃ pod, pod ∈ [ex_pod; ex_pod] ∧ refEnvFromMain c pod).
Proof.
  split; [reflexivity|].
  apply (partitions_match_mechanisms (ex_cluster []) "default"
           [ex_pod; ex_pod]).
  reflexivity.
Defined.

(** X13: the loop over the Pods only appends: starting from sequences that
    already hold names, it leaves them in front, and scanning one list of
    Pods after another adds what each list adds on its own, in that
    order. *)
Theorem scanPods_app (r : Refs) (pods1 pods2 : list Pod) :
  foldl scanPod r (pods1 ++ pods2)
  = rapp (rapp r (foldl scanPod noRefs pods1)) (foldl scanPod noRefs pods2).
Proof.
  rewrite foldl_app.
  rewrite (appends_foldl scanPod appends_scanPod pods2).
  rewrite (appends_foldl scanPod appends_scanPod pods1).
  by rewrite !appends_foldl_noRefs by apply appends_scanPod.
Qed.

(** * Further properties of the pipeline *)

Lemma formatOutput_noneFound_iff Render namespace (configMapNames : list string) :
  formatOutput Render namespace configMapNames = noneFound namespace
  ↔ configMapNames = [].
Proof.
  split; [|by intros ->].
  destruct configMapNames as [|name rest]; [done|].
  unfold formatOutput, noneFound. rewrite decide_False by done.
  discriminate.
Qed.

(** X14: formatOutput returns the message for a namespace without unused
    ConfigMaps only for the empty sequence: a report with a table is never
    mistaken for it. *)
Theorem formatOutput_message_iff_empty Render namespace (configMapNames : list string) :
  formatOutput Render namespace configMapNames
  = "No unused config maps found in the namespace: "%string +:+ namespace
  ↔ configMapNames = [].
Proof. apply formatOutput_noneFound_iff. Qed.

(** X15: sorting and deduplicating the five sequences does not change what
    is reported: when the Pod listing succeeds, the difference is the one
    calculateDifference computes from the sequences as they were
    collected. *)
Theorem dedup_sort_irrelevant rt clientset namespace pods s :
  Pods_List clientset namespace = Ok pods →
  let '(volumesCM, volumesProjectedCM, envCM, envFromCM,
        envFromContainerCM, _) :=
    retrieveVolumesAndEnv clientset namespace in
  (unusedNames rt clientset namespace s).1.1
  = calculateDifference
      ((((volumesCM ++ volumesProjectedCM) ++ envCM) ++ envFromCM)
         ++ envFromContainerCM)
      (retrieveConfigMapNames clientset namespace).1.
Proof.
  intros Hp. rewrite unusedNames_fst.
  rewrite (retrieveVolumesAndEnv_ok _ _ pods Hp).
  unfold unusedNames_of, retrieveConfigMapNames. rewrite Hp.
  destruct (ConfigMaps_List clientset namespace) as [configmaps|err];
    [|done].
  rewrite foldl_snoc_fmap. simpl.
  apply calculateDifference_ext. intros x. unfold usedConfigMaps_of.
  rewrite !elem_of_app, !sort_dedup_elem_of. done.
Qed.

Lemma dedup_sort_irrelevant_witness :
  let clientset := ex_cluster ["zz"; "app-config"; "aa"]%string in
  Pods_List clientset "default" = Ok [ex_pod; ex_pod] ∧
  let '(volumesCM, volumesProjectedCM, envCM, envFromCM,
        envFromContainerCM, _) :=
    retrieveVolumesAndEnv clientset "default" in
  (unusedNames rt_flipping clientset "default" true).1.1
  = calculateDifference
      ((((volumesCM ++ volumesProjectedCM) ++ envCM) ++ envFromCM)
         ++ envFromContainerCM)
      (retrieveConfigMapNames clientset "default").1.
Proof.
  intros clientset. split; [reflexivity|].
  apply (dedup_sort_irrelevant rt_flipping clientset "default"
           [ex_pod; ex_pod] true).
  reflexivity.
Defined.

(** X16: processNamespace fails exactly when one of the two listings of the
    namespace fails, and then returns the empty string with that error: the
    error of the Pod listing when that one fails, whatever the ConfigMap
    listing would return and before any map is ranged over, otherwise the
    error of the ConfigMap listing. *)
Theorem processNamespace_errors rt Render clientset namespace s :
  match Pods_List clientset namespace with
  | Err err =>
      processNamespace rt Render clientset namespace s
      = (EmptyString, Some err, s)
  | Ok _ =>
      match ConfigMaps_List clientset namespace with
      | Err err =>
          (processNamespace rt Render clientset namespace s).1
          = (EmptyString, Some err)
      | Ok _ => (processNamespace rt Render clientset namespace s).1.2 = None
      end
  end.
Proof.
  destruct (Pods_List clientset namespace) as [pods|err] eqn:Hp.
  - rewrite processNamespace_fst. unfold processNamespace_of, unusedNames_of.
    rewrite Hp.
    by destruct (ConfigMaps_List clientset namespace) as [configmaps|err].
  - unfold processNamespace, unusedNames, retrieveVolumesAndEnv.
    by rewrite Hp.
Qed.

(** X17: when both listings succeed, processNamespace returns the message
    for a namespace without unused ConfigMaps exactly when every name of the
    inventory is referenced by some Pod through a volume, a projected volume
    source, or an environment variable or [envFrom] entry of one of its
    regular containers (those of [spec.containers]). *)
Theorem all_referenced_iff_none_found rt Render clientset namespace pods configmaps s :
  Pods_List clientset namespace = Ok pods →
  ConfigMaps_List clientset namespace = Ok configmaps →
  (processNamespace rt Render clientset namespace s).1
  = ("No unused config maps found in the namespace: "%string +:+ namespace,
     None)
  ↔ ∀ C, C ∈ cm_Name <$> configmaps → referencedMain pods C.
Proof.
  intros Hp Hc. rewrite processNamespace_fst.
  rewrite (processNamespace_of_ok Render clientset namespace pods configmaps)
    by done.
  change ("No unused config maps found in the namespace: "%string
            +:+ namespace) with (noneFound namespace).
  split.
  - intros [= Hmsg]. apply formatOutput_noneFound_iff in Hmsg.
    intros C HC. apply elem_of_usedConfigMaps_of.
    by apply (proj1 (calculateDifference_nil_iff _ _) Hmsg).
  - intros Hall. f_equal. apply formatOutput_noneFound_iff.
    apply calculateDifference_nil_iff. intros C HC.
    apply elem_of_usedConfigMaps_of. by apply Hall.
Qed.

Lemma all_referenced_iff_none_found_witness :
  let clientset := ex_cluster ["proj"; "app-config"; "envcm"]%string in
  let configmaps :=
    (λ n, {| cm_Name := n |}) <$> ["proj"; "app-config"; "envcm"]%string in
  Pods_List clientset "default" = Ok [ex_pod; ex_pod] ∧
  ConfigMaps_List clientset "default" = Ok configmaps ∧
  ((processNamespace rt_flipping ex_render clientset "default" true).1
   = ("No unused config maps found in the namespace: "%string
        +:+ "default"%string, None)
   ↔ ∀ C, C ∈ cm_Name <$> configmaps → referencedMain [ex_pod; ex_pod] C).
Proof.
  intros clientset configmaps.
  split; [reflexivity|]. split; [reflexivity|].
  apply (all_referenced_iff_none_found rt_flipping ex_render clientset
           "default" [ex_pod; ex_pod] configmaps true); reflexivity.
Defined.

(** X18: the report of a namespace depends on its Pods only through the
    names they reference through volumes, projected volume sources and the
    environment variables and [envFrom] entries of their regular containers
    (those of [spec.containers]): two Pod listings that reference the same
    names in these ways give, for the same ConfigMap listing, the same
    result, whatever the number and the order of the Pods and of their
    references. *)
Theorem processNamespace_referenced_only rt1 rt2 Render clientset1 clientset2 namespace pods1 pods2 s1 s2 :
  Pods_List clientset1 namespace = Ok pods1 →
  Pods_List clientset2 namespace = Ok pods2 →
  ConfigMaps_List clientset1 namespace = ConfigMaps_List clientset2 namespace →
  (∀ c, referencedMain pods1 c ↔ referencedMain pods2 c) →
  (processNamespace rt1 Render clientset1 namespace s1).1
  = (processNamespace rt2 Render clientset2 namespace s2).1.
Proof.
  intros Hp1 Hp2 Hc Href. rewrite !processNamespace_fst.
  unfold processNamespace_of, unusedNames_of. rewrite Hp1, Hp2, Hc.
  destruct (ConfigMaps_List clientset2 namespace) as [configmaps|err];
    [|done].
  rewrite (calculateDifference_ext (usedConfigMaps_of pods1)
             (usedConfigMaps_of pods2)); [done|].
  intros x. by rewrite !elem_of_usedConfigMaps_of.
Qed.

Lemma processNamespace_referenced_only_witness :
  let clientset1 :=
    ex_cluster_pods [ex_pod; ex_pod_init; ex_pod] ["zz"; "proj"]%string in
  let clientset2 := ex_cluster_pods [ex_pod] ["zz"; "proj"]%string in
  Pods_List clientset1 "default" = Ok [ex_pod; ex_pod_init; ex_pod] ∧
  Pods_List clientset2 "default" = Ok [ex_pod] ∧
  ConfigMaps_List clientset1 "default" = ConfigMaps_List clientset2 "default" ∧
  (∀ c, referencedMain [ex_pod; ex_pod_init; ex_pod] c
        ↔ referencedMain [ex_pod] c) ∧
  (processNamespace rt_listing ex_render clientset1 "default" tt).1
  = (processNamespace rt_flipping ex_render clientset2 "default" true).1.
Proof.
  intros clientset1 clientset2.
  assert (∀ c, ¬ (refVolume c ex_pod_init ∨ refProjected c ex_pod_init
                  ∨ refEnvMain c ex_pod_init ∨ refEnvFromMain c ex_pod_init))
    as Hnone.
  { intros c [(volume & cm & Hin & _)
             |[(volume & projected & source & cm & Hin & _)
              |[(container & env & valueFrom & ref & Hin & Henv & _)
               |(container & envFrom & ref & Hin & Hfrom & _)]]].
    - by apply elem_of_nil in Hin.
    - by apply elem_of_nil in Hin.
    - apply list_elem_of_singleton in Hin as ->. by apply elem_of_nil in Henv.
    - apply list_elem_of_singleton in Hin as ->.
      by apply elem_of_nil in Hfrom. }
  assert (∀ c, referencedMain [ex_pod; ex_pod_init; ex_pod] c
               ↔ referencedMain [ex_pod] c) as Href.
  { intros c. unfold referencedMain. split.
    - intros (pod & Hin & Hr). exists ex_pod. split; [apply elem_of_cons; auto|].
      rewrite !elem_of_cons, elem_of_nil in Hin.
      destruct Hin as [->|[->|[->|[]]]]; [done| |done].
      by destruct (Hnone c).
    - intros (pod & Hin & Hr). exists pod. split; [|done].
      rewrite elem_of_cons in Hin. rewrite !elem_of_cons. tauto. }
  split; [reflexivity|]. split; [reflexivity|]. split; [reflexivity|].
  split; [exact Href|].
  apply (processNamespace_referenced_only rt_listing rt_flipping ex_render
           clientset1 clientset2 "default" [ex_pod; ex_pod_init; ex_pod]
           [ex_pod] tt true);
    [reflexivity|reflexivity|reflexivity|exact Href].
Defined.

(** * Further properties of the driver *)

(** X19: GetUnusedConfigmaps exits with 0 exactly when the kubeconfig is
    loaded, the client is built and the namespaces are listed, however many
    namespaces then fail; when one of these three steps fails, the first
    that fails decides the outcome: exit status 1, nothing on standard
    output, and on standard error the one line made of the message of that
    step and the error it returned. *)
Theorem GetUnusedConfigmaps_exit rt Render host s :
  let outcome := GetUnusedConfigmaps rt Render host s in
  (exitCode outcome = 0%Z
   ↔ ∃ config clientset namespaceList,
       BuildConfigFromFlags host EmptyString (getKubeConfigPath host)
       = Ok config ∧
       NewForConfig host config = Ok clientset ∧
       Namespaces_List clientset = Ok namespaceList) ∧
  match BuildConfigFromFlags host EmptyString (getKubeConfigPath host) with
  | Err err =>
      outcome
      = {| stdout := EmptyString;
           stderr := "Failed to load kubeconfig: "%string +:+ err +:+ LF;
           exitCode := 1 |}
  | Ok config =>
      match NewForConfig host config with
      | Err err =>
          outcome
          = {| stdout := EmptyString;
               stderr := "Failed to create Kubernetes client: "%string
                           +:+ err +:+ LF;
               exitCode := 1 |}
      | Ok clientset =>
          match Namespaces_List clientset with
          | Err err =>
              outcome
              = {| stdout := EmptyString;
                   stderr := "Failed to retrieve namespaces: "%string
                               +:+ err +:+ LF;
                   exitCode := 1 |}
          | Ok _ => exitCode outcome = 0%Z
          end
      end
  end.
Proof.
  unfold GetUnusedConfigmaps.
  destruct (BuildConfigFromFlags host EmptyString (getKubeConfigPath host))
    as [config|err] eqn:Hb.
  - destruct (NewForConfig host config) as [clientset|err] eqn:Hn.
    + destruct (Namespaces_List clientset) as [namespaceList|err] eqn:Hl.
      * destruct (namespaceLoop rt Render clientset _ _ _ s)
          as [[out errs] s']. simpl. split; [|done].
        split; [|done]. intros _. by exists config, clientset, namespaceList.
      * simpl. split; [|done]. split; [done|].
        intros (config' & clientset' & nsl & [= <-] & Hn' & Hl').
        rewrite Hn in Hn'. injection Hn' as <-. congruence.
    + simpl. split; [|done]. split; [done|].
      intros (config' & clientset' & nsl & [= <-] & Hn' & _). congruence.
  - simpl. split; [|done]. split; [done|].
    by intros (config' & clientset' & nsl & ? & _).
Qed.

(** X20: when the setup succeeds, GetUnusedConfigmaps writes to standard
    output, in the order in which the namespaces were listed, the report of
    every namespace whose listings succeed followed by an empty line, writes
    to standard error one line for every other namespace, and exits
    with 0. *)
Theorem GetUnusedConfigmaps_output rt Render host config clientset namespaceList s :
  BuildConfigFromFlags host EmptyString (getKubeConfigPath host) = Ok config →
  NewForConfig host config = Ok clientset →
  Namespaces_List clientset = Ok namespaceList →
  GetUnusedConfigmaps rt Render host s
  = {| stdout := joinBlocks (stdoutBlock Render clientset
                               <$> (ns_Name <$> namespaceList));
       stderr := joinBlocks (stderrBlock clientset
                               <$> (ns_Name <$> namespaceList));
       exitCode := 0 |}.
Proof. apply GetUnusedConfigmaps_ok. Qed.

Lemma GetUnusedConfigmaps_output_witness :
  let host := ex_host ["proj"]%string in
  let clientset := ex_cluster ["proj"]%string in
  let namespaceList :=
    (λ n, {| ns_Name := n |}) <$>
      ["default"; "broken"; "nocm"; "other"]%string in
  BuildConfigFromFlags host EmptyString (getKubeConfigPath host) = Ok tt ∧
  NewForConfig host tt = Ok clientset ∧
  Namespaces_List clientset = Ok namespaceList ∧
  GetUnusedConfigmaps rt_flipping ex_render host false
  = {| stdout := joinBlocks (stdoutBlock ex_render clientset
                               <$> (ns_Name <$> namespaceList));
       stderr := joinBlocks (stderrBlock clientset
                               <$> (ns_Name <$> namespaceList));
       exitCode := 0 |}.
Proof.
  intros host clientset namespaceList.
  split; [reflexivity|]. split; [reflexivity|]. split; [reflexivity|].
  apply (GetUnusedConfigmaps_output rt_flipping ex_render host tt clientset
           namespaceList false); reflexivity.
Defined.

(** X21: what GetUnusedConfigmaps writes and its exit status do not depend
    on the order in which the runtime ranges over maps. *)
Theorem GetUnusedConfigmaps_runtime_independent rt1 rt2 Render host s1 s2 :
  GetUnusedConfigmaps rt1 Render host s1
  = GetUnusedConfigmaps rt2 Render host s2.
Proof.
  unfold GetUnusedConfigmaps.
  destruct (BuildConfigFromFlags host EmptyString (getKubeConfigPath host))
    as [config|err]; [|done].
  destruct (NewForConfig host config) as [clientset|err]; [|done].
  destruct (Namespaces_List clientset) as [namespaceList|err]; [|done].
  pose proof (namespaceLoop_fst rt1 Render clientset
                (foldl (λ namespaces ns, namespaces ++ [ns_Name ns])
                       [] namespaceList)
                EmptyString EmptyString s1) as H1.
  pose proof (namespaceLoop_fst rt2 Render clientset
                (foldl (λ namespaces ns, namespaces ++ [ns_Name ns])
                       [] namespaceList)
                EmptyString EmptyString s2) as H2.
  destruct (namespaceLoop rt1 Render clientset _ _ _ s1) as [[out1 errs1] s1'].
  destruct (namespaceLoop rt2 Render clientset _ _ _ s2) as [[out2 errs2] s2'].
  simpl in H1, H2. rewrite <- H2 in H1. by injection H1 as -> ->.
Qed.

(** * The scenarios of the specification, run on the model *)

Example scenario_default :
  (processNamespace rt_flipping ex_render
     (ex_cluster ["app-config"; "db-secrets"; "unused-cm"]%string)
     "default" true).1
  = ("Unused Config Maps in Namespace: default"%string +:+ LF
       +:+ "#|Config Map Name"%string +:+ LF
       +:+ "1|unused-cm"%string +:+ LF,
     None).
Proof. by vm_compute. Qed.

Example scenario_empty_ns :
  (processNamespace rt_listing ex_render (ex_cluster []) "empty-ns" tt).1
  = ("No unused config maps found in the namespace: empty-ns"%string, None).
Proof. by vm_compute. Qed.

Example scenario_listing_order :
  (unusedNames rt_listing (ex_cluster ["zz"; "app-config"; "aa"; "zz"]%string)
     "default" tt).1
  = (["zz"; "aa"; "zz"]%string, None).
Proof. by vm_compute. Qed.

Example scenario_driver :
  GetUnusedConfigmaps rt_flipping ex_render (ex_host ["proj"]%string) false
  = {| stdout :=
         "No unused config maps found in the namespace: default"%string
           +:+ LF +:+ LF
           +:+ "Unused Config Maps in Namespace: other"%string +:+ LF
           +:+ "#|Config Map Name"%string +:+ LF
           +:+ "1|proj"%string +:+ LF +:+ LF +:+ LF;
       stderr :=
         "Failed to process namespace broken: timeout"%string +:+ LF
           +:+ "Failed to process namespace nocm: forbidden"%string +:+ LF;
       exitCode := 0 |}.
Proof. by vm_compute. Qed.
